(** * Epsagon tracing wrapper for Cloudflare Workers: a shallow embedding

    The development follows the two source modules of the package:
    - [wrapper.js]: [PromiseSettledCoordinator], [TraceWrapper], [resolve];
    - [tracer.js] : [convertHeaders], [Span], [RequestTracer].

    JavaScript objects used as string-keyed records are finite maps
    ([gmap string _]); mutation is explicit state passing; code that can
    throw runs in a small state-and-exception monad in which the state
    reached before a [throw] is kept, as in JavaScript.  The host
    (promise settlement, the job queue, the clock, [Math.random]) is
    the environment: its choices are the events of a step function. *)

From Stdlib Require Import QArith.
From Stdlib Require Import Ascii.
From stdpp Require Import gmap strings list fin_maps sorting pretty.

Set Warnings "-register-all".
Open Scope Z_scope.
Open Scope nat_scope.

(** ** JavaScript values *)

(** Numbers.  A JavaScript number is a double; the finite ones are
    rationals, and the code only compares them, divides [1] by them and
    prints them.  Comparison is exact in this model.  The quotient
    [1 / n] is the exact one, where the engine rounds it to a double;
    the two agree whenever [n] is a power of two, [1] included. *)
Inductive number :=
| NaN
| Infinity (negative : bool)
| Finite (q : Q).

Coercion Finite : Q >-> number.

Inductive value :=
| VUndefined
| VNull
| VBool (b : bool)
| VNum (n : number)
| VStr (s : string)
| VError (name message stack : string)   (* an [Error] object *)
| VObj (props : gmap string value).      (* a plain object *)

Abbreviation object := (gmap string value).

Definition num_truthy (n : number) : bool :=
  match n with
  | NaN => false
  | Infinity _ => true
  | Finite q => negb (Qeq_bool q 0)
  end.

(** ToBoolean. *)
Definition truthy (v : value) : bool :=
  match v with
  | VUndefined | VNull => false
  | VBool b => b
  | VNum n => num_truthy n
  | VStr s => negb (String.eqb s "")
  | VError _ _ _ | VObj _ => true
  end.

(** [a || b]. *)
Definition or_else (a b : value) : value := if truthy a then a else b.

(** [n >= 1]. *)
Definition num_ge1 (n : number) : bool :=
  match n with
  | NaN => false
  | Infinity negative => negb negative
  | Finite q => Qle_bool 1 q
  end.

(** [a < b]. *)
Definition num_lt (a b : number) : bool :=
  match a, b with
  | NaN, _ | _, NaN => false
  | _, Infinity true => false
  | Infinity true, _ => true
  | Infinity false, _ => false
  | Finite _, Infinity false => true
  | Finite x, Finite y => negb (Qle_bool y x)
  end.

(** [1 / n]. *)
Definition num_inv (n : number) : number :=
  match n with
  | NaN => NaN
  | Infinity _ => Finite 0
  | Finite q => if Qeq_bool q 0 then Infinity false else Finite (/ q)
  end.

Definition is_integer (q : Q) : bool := Z.eqb (Z.pos (Qden (Qred q))) 1.

(** The digits after the point of a positive fraction [n / d < 1]. *)
Fixpoint fraction_digits (fuel : nat) (n d : Z) : string :=
  match fuel with
  | O => ""
  | S fuel =>
      if Z.eqb n 0 then ""
      else pretty (10 * n / d)%Z +:+ fraction_digits fuel ((10 * n) mod d)%Z d
  end.

(** [Number.prototype.toString].  Exact on the integers below [10^21],
    which the engine prints in plain decimal.  For a number that is not
    an integer the engine prints the shortest decimal that reads back as
    the same double; here the exact quotient is printed to twenty
    places. *)
Definition numberToString (n : number) : string :=
  match n with
  | NaN => "NaN"
  | Infinity false => "Infinity"
  | Infinity true => "-Infinity"
  | Finite q =>
      let q := Qred q in
      if is_integer q then pretty (Qnum q)
      else
        let a := Z.abs (Qnum q) in
        let d := Z.pos (Qden q) in
        (if Z.ltb (Qnum q) 0 then "-" else "") +:+ pretty (a / d)%Z +:+ "." +:+
        fraction_digits 20 (a mod d)%Z d
  end.

(** ** Errors and the state-and-exception monad *)

(** What can be thrown: an [Error] or a [TypeError] made by this code or
    by the engine, or whatever value user code throws. *)
Inductive error :=
| Error (message : string)
| TypeError (message : string)
| Thrown (v : value).

Definition M (S A : Type) : Type := S → (error + A) * S.

Definition ret {S A} (a : A) : M S A := λ s, (inr a, s).
Definition throw {S A} (e : error) : M S A := λ s, (inl e, s).
Definition bind {S A B} (m : M S A) (k : A → M S B) : M S B :=
  λ s, match m s with
       | (inl e, s') => (inl e, s')
       | (inr a, s') => k a s'
       end.
Definition gets {S A} (f : S → A) : M S A := λ s, (inr (f s), s).
Definition modify {S} (f : S → S) : M S unit := λ s, (inr tt, f s).

Notation "x ←' m ;; k" := (bind m (λ x, k))
  (at level 100, m at next level, right associativity).
Notation "m ;;' k" := (bind m (λ _, k))
  (at level 100, right associativity).

(** Reading a property.  [undefined] and [null] have none and the read
    throws; a primitive has none of the properties this code reads. *)
Definition getOwn (v : value) (k : string) : value :=
  match v with
  | VObj props => default VUndefined (props !! k)
  | VError name message stack =>
      if String.eqb k "name" then VStr name
      else if String.eqb k "message" then VStr message
      else if String.eqb k "stack" then VStr stack
      else VUndefined
  | _ => VUndefined
  end.

Definition nullish (v : value) : bool :=
  match v with VUndefined | VNull => true | _ => false end.

Definition get {S} (v : value) (k : string) : M S value :=
  if nullish v then
    throw (TypeError ("Cannot read property '" +:+ k +:+ "' of " +:+
                      (if v is VNull then "null" else "undefined")))
  else ret (getOwn v k).

(** [v.toString()] for a [v] that is neither [undefined] nor [null];
    [Error.prototype.toString] for an [Error]. *)
Definition toStringOwn (v : value) : string :=
  match v with
  | VUndefined => "undefined"
  | VNull => "null"
  | VBool b => if b then "true" else "false"
  | VNum n => numberToString n
  | VStr s => s
  | VError name message _ =>
      if String.eqb name "" then message
      else if String.eqb message "" then name
      else name +:+ ": " +:+ message
  | VObj _ => "[object Object]"
  end.

Definition toString {S} (v : value) : M S string :=
  if nullish v then
    throw (TypeError ("Cannot read property 'toString' of " +:+
                      (if v is VNull then "null" else "undefined")))
  else ret (toStringOwn v).

(** [s[0]] inside a template literal: the first character, or the text
    [undefined] when there is none. *)
Definition firstChar (s : string) : string :=
  match s with
  | String c _ => String c ""
  | EmptyString => "undefined"
  end.

(** [String.prototype.toLowerCase], on ASCII, which is what header names
    are made of. *)
Definition lower (c : ascii) : ascii :=
  let n := nat_of_ascii c in
  if (65 <=? n) && (n <=? 90) then ascii_of_nat (n + 32) else c.

Fixpoint toLowerCase (s : string) : string :=
  match s with
  | EmptyString => EmptyString
  | String c s => String (lower c) (toLowerCase s)
  end.

(** [Array.prototype.includes] on an array of strings: no other kind of
    value is the same as a string. *)
Definition includes (l : list string) (v : value) : bool :=
  match v with
  | VStr s => bool_decide (s ∈ l)
  | _ => false
  end.

(** ** tracer.js *)

Module Tracer.

(** *** Host objects *)

(** A [Headers] object, as the pairs its [entries()] yields. *)
Definition Headers := list (string * string).

Record Request := {
  request_headers : option Headers;
  request_method : value;
  request_redirect : value;
  request_referrer : value;
  request_referrerPolicy : value;
  request_url : value;
}.

Record Response := {
  response_headers : option Headers;
  response_ok : value;
  response_redirected : value;
  response_status : value;
  response_statusText : value;
  response_url : value;
}.

(** *** Configuration *)

(** A sample rate is a number, or [undefined]. *)
Definition rate := option number.

Inductive SampleRates :=
| RateFunction (f : object → rate)
| RateTable (table : gmap string number).

(** The configuration after [resolve]. *)
Record Config := {
  acceptTraceContext : bool;
  token : string;
  app_name : string;
  data : object;
  redactRequestHeaders : list string;
  redactResponseHeaders : list string;
  sampleRates : SampleRates;
  sendTraceContext : bool;
  serviceName : value;
}.

(** *** convertHeaders *)

(** The [for] loop of [convertHeaders], from a given [to]. *)
Definition convertInto (redacted : list string) (to : gmap string string)
    (from : Headers) : gmap string string :=
  foldl (λ to '(key, value),
           let key := toLowerCase key in
           <[key := if bool_decide (key ∈ redacted) then "REDACTED" else value]> to)
        to from.

Definition convertHeaders (from : Headers) (redacted : list string)
  : gmap string string :=
  let to := ∅ in
  convertInto redacted to from.

Definition headersObject (h : gmap string string) : value := VObj (VStr <$> h).

(** *** Span *)

(** The [init] argument of the constructor; a field left out reads as
    [undefined]. *)
Record Init := {
  init_name : value;
  init_trace_context : value;
  init_service_name : value;
}.

(** [this.eventMeta]: four properties from the constructor on, and
    [duration_ms] once [finish] has run. *)
Record EventMeta := {
  timestamp : Z;
  name : value;
  trace : value;
  service_name : value;
  duration_ms : option Z;
}.

Definition metaObject (m : EventMeta) : object :=
  let o : object :=
    {[ "timestamp" := VNum (inject_Z (timestamp m));
       "name" := name m;
       "trace" := trace m;
       "service_name" := service_name m ]} in
  match duration_ms m with
  | Some d => <["duration_ms" := VNum (inject_Z d)]> o
  | None => o
  end.

(** [this.request] and [this.response] keep the host objects and are
    never read; they are left out. *)
Inductive Span := mkSpan {
  config : Config;
  spanData : object;
  childSpans : list Span;
  eventMeta : EventMeta;
}.

Definition set_data (d : object) (s : Span) : Span :=
  mkSpan (config s) d (childSpans s) (eventMeta s).
Definition set_childSpans (cs : list Span) (s : Span) : Span :=
  mkSpan (config s) (spanData s) cs (eventMeta s).
Definition set_eventMeta (m : EventMeta) (s : Span) : Span :=
  mkSpan (config s) (spanData s) (childSpans s) m.

(** [new Span(init, config)], at time [now]. *)
Definition newSpan (now : Z) (init : Init) (config : Config) : Span :=
  {| config := config;
     spanData := ∅;
     childSpans := [];
     eventMeta := {| timestamp := now;
                     name := init_name init;
                     trace := init_trace_context init;
                     service_name := init_service_name init;
                     duration_ms := None |} |}.

(** [Object.assign({}, this.data, this.eventMeta)]: the later source wins. *)
Definition toEvent (s : Span) : object := metaObject (eventMeta s) ∪ spanData s.

Fixpoint parseToEvents (s : Span) : list object :=
  let event := toEvent s in
  let childEvents := concat (map parseToEvents (childSpans s)) in
  event :: childEvents.

(** [Object.assign(this.data, data)]. *)
Definition addData (patch : object) (s : Span) : Span :=
  set_data (patch ∪ spanData s) s.

Definition addRequest (request : option Request) (s : Span) : Span :=
  match request with
  | None => s
  | Some request =>
      let json : object :=
        {[ "headers" :=
             match request_headers request with
             | Some h => headersObject (convertHeaders h (redactRequestHeaders (config s)))
             | None => VUndefined
             end;
           "method" := request_method request;
           "redirect" := request_redirect request;
           "referrer" := request_referrer request;
           "referrerPolicy" := request_referrerPolicy request;
           "url" := request_url request ]} in
      addData {[ "request" := VObj json ]} s
  end.

Definition addResponse (response : option Response) (body : value) (s : Span) : Span :=
  match response with
  | None => s
  | Some response =>
      let json : object :=
        {[ "headers" :=
             match response_headers response with
             | Some h => headersObject (convertHeaders h (redactResponseHeaders (config s)))
             | None => VUndefined
             end;
           "ok" := response_ok response;
           "redirected" := response_redirected response;
           "status" := response_status response;
           "statusText" := response_statusText response;
           "url" := response_url response;
           "body" := body ]} in
      addData {[ "response" := VObj json ]} s
  end.

Definition start (now : Z) (s : Span) : Span :=
  let m := eventMeta s in
  set_eventMeta {| timestamp := now; name := name m; trace := trace m;
                   service_name := service_name m; duration_ms := duration_ms m |} s.

Definition finish (now : Z) (s : Span) : Span :=
  let m := eventMeta s in
  set_eventMeta {| timestamp := timestamp m; name := name m; trace := trace m;
                   service_name := service_name m;
                   duration_ms := Some (now - timestamp m)%Z |} s.

(** Returns the parent after the [push] and the span handed back. *)
Definition startChildSpan (now : Z) (name serviceName : value) (s : Span)
  : Span * Span :=
  let trace := trace (eventMeta s) in
  let service_name := or_else serviceName (service_name (eventMeta s)) in
  let span := newSpan now {| init_name := name;
                             init_trace_context := VUndefined;
                             init_service_name := service_name |} (config s) in
  (set_childSpans (childSpans s ++ [span]) s, span).

(** Spans are objects held by reference.  A reference is the way down
    from the root: the index in [childSpans] at each level. *)
Definition ref := list nat.

Fixpoint deref (r : ref) (s : Span) : option Span :=
  match r with
  | [] => Some s
  | i :: r => c ← childSpans s !! i; deref r c
  end.

(** Run a method on the span behind a reference. *)
Fixpoint at_ref (r : ref) (f : Span → Span) (s : Span) : Span :=
  match r with
  | [] => f s
  | i :: r => set_childSpans (alter (at_ref r f) i (childSpans s)) s
  end.

(** The references to the spans under [s], itself included, in the
    order of a walk that visits a span before its children and the
    children in the order of [childSpans]. *)
Fixpoint refsFrom (i : nat) (ls : list (list ref)) : list ref :=
  match ls with
  | [] => []
  | l :: ls => map (cons i) l ++ refsFrom (S i) ls
  end.

Fixpoint refs (s : Span) : list ref :=
  [] :: refsFrom 0 (map refs (childSpans s)).

(** [r] comes before [r'] in pre-order: [r'] is under [r], or they part
    ways at a span where [r] goes into an earlier child. *)
Fixpoint ref_lt (r r' : ref) : Prop :=
  match r, r' with
  | [], _ :: _ => True
  | i :: r, j :: r' => i < j ∨ (i = j ∧ ref_lt r r')
  | _, [] => False
  end.

(** *** RequestTracer *)

(** A [Span] with one more property, [sampleRate], which is not there
    until [setSampleRate] puts it. *)
Record RequestTracer := {
  span : Span;
  sampleRate : rate;
}.

Definition on_span (f : Span → Span) (t : RequestTracer) : RequestTracer :=
  {| span := f (span t); sampleRate := sampleRate t |}.

Definition newRequestTracer (now : Z) (request : option Request) (config : Config)
  : RequestTracer :=
  let s := newSpan now {| init_name := VStr "request";
                          init_trace_context := VUndefined;
                          init_service_name := serviceName config |} config in
  {| span := addData (data config) (addRequest request s);
     sampleRate := None |}.

Definition setSampleRate (r : rate) (t : RequestTracer) : RequestTracer :=
  {| span := span t; sampleRate := r |}.

Definition rate_truthy (r : rate) : bool :=
  match r with Some n => num_truthy n | None => false end.

Definition getSampleRate (data : object) : M RequestTracer rate :=
  override ←' gets sampleRate;;
  if override is Some _ then ret override
  else
    sampleRates ←' gets (λ t, sampleRates (config (span t)));;
    match sampleRates with
    | RateFunction f => ret (f data)
    | RateTable table =>
        let response := getOwn (VObj data) "response" in
        noResponse ←'
          (if negb (truthy response) then
             status ←' get response "status";; ret (negb (truthy status))
           else ret false);;
        if noResponse : bool then ret (table !! "exception")
        else
          status ←' get response "status";;
          text ←' toString status;;
          let key := firstChar text +:+ "xx" in
          let entry := table !! key in
          ret (if rate_truthy entry then entry else Some (Finite 1))
    end.

(** [sampleRate >= 1 && Math.random() < 1 / sampleRate]; [undefined]
    converts to [NaN]. *)
Definition sampled (sampleRate : rate) (random : Q) : bool :=
  let n := default NaN sampleRate in
  num_ge1 n && num_lt (Finite random) (num_inv n).

Definition keepEvent (excludeSpans : option (list string)) (event : object) : bool :=
  match excludeSpans with
  | Some l => negb (includes l (getOwn (VObj event) "name"))
  | None => true
  end.

(** [sendEvents], given what [Math.random()] returns.  The result is the
    array handed to [sendBatch], or [None] when [sendBatch] is not
    called. *)
Definition sendEvents (random : Q) (excludeSpans : option (list string))
  : M RequestTracer (option (list object)) :=
  data ←' gets (λ t, spanData (span t));;
  sampleRate ←' getSampleRate data;;
  if sampled sampleRate random then
    events ←' gets (λ t, filter (λ e, keepEvent excludeSpans e = true)
                                (parseToEvents (span t)));;
    ret (Some events)
  else ret None.

Definition finishResponse (now : Z) (response : option Response) (error body : value)
    (s : Span) : Span :=
  let s :=
    match response with
    | Some _ => addResponse response body s
    | None =>
        if truthy error then
          addData {[ "exception" := VBool true;
                     "error_name" := getOwn error "name";
                     "stack" := getOwn error "stack";
                     "message" := getOwn error "message";
                     "responseException" := VStr (toStringOwn error) ]} s
        else s
    end in
  finish now s.

(** The part of [sendBatch] that fills [runner_trace.exception] and
    [runner_trace.error_code] from [events[0]]. *)
Definition runnerTraceException {S} (events : list object) : M S (object * Z) :=
  let first := from_option VObj VUndefined (head events) in
  exception ←' get first "exception";;
  if truthy exception then
    error_name ←' get first "error_name";;
    stack ←' get first "stack";;
    message ←' get first "message";;
    ret ({[ "type" := error_name;
            "tracebook" := stack;
            "additional_data" :=
              VObj {[ "warning" := VBool false; "handled" := VBool false ]};
            "message" := message ]}, 2%Z)
  else ret (∅, 0%Z).

End Tracer.

(** ** PromiseSettledCoordinator (wrapper.js) *)

Module Coordinator.

Section WithPayload.
(** Promises are objects with identity, and the same promise may be
    handed to [addPromise] more than once; [P] names them.  What a
    promise settles with, [V], is of no concern to the coordinator. *)
Context {P : Type} `{CountP : Countable P} {V : Type}.

(** One entry of the array [Promise.allSettled] resolves with. *)
Inductive outcome :=
| Fulfilled (value : V)
| Rejected (reason : V).

Local Abbreviation promise := P.

(** [this.promises] and [this.allSettled]. *)
Record coordinator := {
  promises : list promise;
  allSettled : bool;
}.

(** The reaction [settled.then((results) => ...)] that one call of
    [addPromise] leaves behind: the closure keeps [currentLength], and
    [Promise.allSettled] has read the array when it was called. *)
Record join := {
  currentLength : nat;
  awaited : list promise;
}.

(** The coordinator within its environment: which promises have
    settled, the reactions that have not run yet, and the calls of
    [this.finished] so far (each with its [results] argument), the
    latest first. *)
Record world := {
  settler : coordinator;
  settled : gmap promise outcome;
  reactions : list join;
  finishedCalls : list (list outcome);
}.

Definition constructor : world :=
  {| settler := {| promises := []; allSettled := false |};
     settled := ∅; reactions := []; finishedCalls := [] |}.

Definition set_settler (f : coordinator → coordinator) (w : world) : world :=
  {| settler := f (settler w); settled := settled w;
     reactions := reactions w; finishedCalls := finishedCalls w |}.

Definition push (p : promise) (c : coordinator) : coordinator :=
  {| promises := promises c ++ [p]; allSettled := allSettled c |}.

Definition then_ (j : join) (w : world) : world :=
  {| settler := settler w; settled := settled w;
     reactions := reactions w ++ [j]; finishedCalls := finishedCalls w |}.

Definition addPromise (p : promise) : M world unit :=
  done ←' gets (λ w, allSettled (settler w));;
  if done : bool then throw (Error "All promises have already been settled!")
  else
    modify (set_settler (push p));;'
    currentLength ←' gets (λ w, length (promises (settler w)));;
    snapshot ←' gets (λ w, promises (settler w));;
    modify (then_ {| currentLength := currentLength; awaited := snapshot |}).

(** The body of the reaction, run once every awaited promise has
    settled. *)
Definition react (j : join) (results : list outcome) (w : world) : world :=
  if currentLength j =? length (promises (settler w)) then
    {| settler := {| promises := promises (settler w); allSettled := true |};
       settled := settled w;
       reactions := reactions w;
       finishedCalls := results :: finishedCalls w |}
  else w.

(** *** The environment *)

Inductive event :=
| Add (p : promise)                   (* a caller runs [addPromise(p)] *)
| Settle (p : promise) (o : outcome)  (* a pending promise settles *)
| RunJoin (k : nat).                  (* the reaction with [currentLength = k] runs *)

Definition take_join (k : nat) (js : list join) : option (join * list join) :=
  match filter (λ j, currentLength j = k) js with
  | j :: _ => Some (j, filter (λ j, currentLength j ≠ k) js)
  | [] => None
  end.

(** [Promise.allSettled]: resolved when all have settled, never before. *)
Definition allSettledResults (sm : gmap promise outcome) (ps : list promise)
  : option (list outcome) := mapM (λ p, sm !! p) ps.

(** One step; [None] when the event cannot happen in [w].  A
    registration that throws ends the run: callers are required not to
    register after completion. *)
Definition step (w : world) (e : event) : option world :=
  match e with
  | Add p =>
      match addPromise p w with
      | (inr _, w') => Some w'
      | (inl _, _) => None
      end
  | Settle p o =>
      match settled w !! p with
      | Some _ => None
      | None => Some {| settler := settler w; settled := <[p := o]> (settled w);
                        reactions := reactions w; finishedCalls := finishedCalls w |}
      end
  | RunJoin k =>
      '(j, rest) ← take_join k (reactions w);
      results ← allSettledResults (settled w) (awaited j);
      Some (react j results
              {| settler := settler w; settled := settled w;
                 reactions := rest; finishedCalls := finishedCalls w |})
  end.

Fixpoint run (w : world) (es : list event) : option world :=
  match es with
  | [] => Some w
  | e :: es => w' ← step w e; run w' es
  end.

Definition pending (w : world) (p : promise) : Prop := settled w !! p = None.

(** Nothing is left to happen: every registered promise has settled
    and every reaction has run. *)
Definition quiescent (w : world) : Prop :=
  reactions w = [] ∧ ∀ p, p ∈ promises (settler w) → ¬ pending w p.

(** The [currentLength]s of the reactions still to run. *)
Definition lengths (w : world) : list nat := currentLength <$> reactions w.

(** What holds of every world the coordinator can reach. *)
Record inv (w : world) : Prop := {
  inv_sorted : StronglySorted lt (lengths w);
  inv_joins : ∀ j, j ∈ reactions w →
    currentLength j ≤ length (promises (settler w)) ∧
    awaited j = take (currentLength j) (promises (settler w));
  inv_open : allSettled (settler w) = false →
    finishedCalls w = [] ∧
    (promises (settler w) = [] ∨ length (promises (settler w)) ∈ lengths w);
  inv_done : allSettled (settler w) = true →
    (length (promises (settler w)) ∉ lengths w) ∧
    (∃ results, finishedCalls w = [results] ∧
      allSettledResults (settled w) (promises (settler w)) = Some results);
}.

End WithPayload.

Arguments outcome : clear implicits.
Arguments coordinator : clear implicits.
Arguments join : clear implicits.
Arguments world P {_ _} V.
Arguments event : clear implicits.

End Coordinator.


(** ** TraceWrapper, resolve and epsagon (wrapper.js) *)

Module Wrapper.
Import Tracer.

(** *** resolve *)

(** The options a user may give; one left out takes its default. *)
Record UserConfig := {
  cfg_acceptTraceContext : option bool;
  cfg_token : option string;
  cfg_app_name : option string;
  cfg_data : option object;
  cfg_redactRequestHeaders : option (list string);
  cfg_redactResponseHeaders : option (list string);
  cfg_sampleRates : option SampleRates;
  cfg_sendTraceContext : option bool;
  cfg_serviceName : option value;
}.

(** [{}]: every option left out. *)
Definition noOptions : UserConfig :=
  {| cfg_acceptTraceContext := None; cfg_token := None; cfg_app_name := None;
     cfg_data := None; cfg_redactRequestHeaders := None;
     cfg_redactResponseHeaders := None; cfg_sampleRates := None;
     cfg_sendTraceContext := None; cfg_serviceName := None |}.

Definition withSampleRates (r : SampleRates) (cfg : UserConfig) : UserConfig :=
  {| cfg_acceptTraceContext := cfg_acceptTraceContext cfg;
     cfg_token := cfg_token cfg; cfg_app_name := cfg_app_name cfg;
     cfg_data := cfg_data cfg;
     cfg_redactRequestHeaders := cfg_redactRequestHeaders cfg;
     cfg_redactResponseHeaders := cfg_redactResponseHeaders cfg;
     cfg_sampleRates := Some r;
     cfg_sendTraceContext := cfg_sendTraceContext cfg;
     cfg_serviceName := cfg_serviceName cfg |}.

Definition resolve (cfg : UserConfig) : Config :=
  {| acceptTraceContext := default false (cfg_acceptTraceContext cfg);
     token := default "" (cfg_token cfg);
     app_name := default "cloudflare" (cfg_app_name cfg);
     data := default ∅ (cfg_data cfg);
     redactRequestHeaders :=
       toLowerCase <$> default ["authorization"; "cookie"; "referer"]
                               (cfg_redactRequestHeaders cfg);
     redactResponseHeaders :=
       toLowerCase <$> default ["set-cookie"] (cfg_redactResponseHeaders cfg);
     sampleRates := default (RateFunction (λ _, Some (Finite 1))) (cfg_sampleRates cfg);
     sendTraceContext := default false (cfg_sendTraceContext cfg);
     serviceName := default (VStr "worker") (cfg_serviceName cfg) |}.

(** *** Promises and what they settle with *)

(** The promises user code hands over, and the one each call of the
    proxied [respondWith] makes with [new Promise]. *)
Inductive promise :=
| UserPromise (n : nat)
| ResponseTask (n : nat).

#[global] Instance promise_eq_dec : EqDecision promise.
Proof. solve_decision. Defined.

#[global] Instance promise_countable : Countable promise.
Proof.
  apply (inj_countable'
           (λ p, match p with UserPromise n => inl n | ResponseTask n => inr n end)
           (λ s, match s with inl n => UserPromise n | inr n => ResponseTask n end)).
  by intros [].
Defined.

Inductive payload :=
| PResponse (r : Response)
| PValue (v : value).

(** A rejection reason as the code reads it.  A [Response] used as a
    reason is an object with none of the properties read from it. *)
Definition reasonValue (p : payload) : value :=
  match p with
  | PValue v => v
  | PResponse _ => VObj ∅
  end.

(** An error that reaches a [catch], as a value; the engine's stack text
    is not modelled. *)
Definition errorValue (e : error) : value :=
  match e with
  | Error message => VError "Error" message ""
  | TypeError message => VError "TypeError" message ""
  | Thrown v => v
  end.

(** *** The wrapper and its environment *)

(** [this.config] is the tracer's; [this.waitUntilSpan] is a reference
    to the tracer's first child; [this.settler] is kept with the promises
    around it in [jobs] below. *)
Record TraceWrapper := {
  waitUntilUsed : bool;
  tracer : RequestTracer;
}.

Definition waitUntilSpan : ref := [0].

Record world := {
  this : TraceWrapper;
  (** [this.settler], the promises and the reactions waiting on them *)
  jobs : Coordinator.world promise payload;
  (** what the host's own [respondWith] was called with *)
  respondWithCalls : list promise;
  (** [promise.then(finishWaitUntil).catch(...)] chains still to run *)
  afterWaitUntil : list promise;
  (** whether [this.waitUntilResolve()] has been called *)
  waitUntilResolved : bool;
  (** the arrays [sendBatch] was called with, the latest first *)
  batches : list (list object);
}.

Definition set_this (f : TraceWrapper → TraceWrapper) (w : world) : world :=
  {| this := f (this w); jobs := jobs w; respondWithCalls := respondWithCalls w;
     afterWaitUntil := afterWaitUntil w; waitUntilResolved := waitUntilResolved w;
     batches := batches w |}.

Definition on_tracer (f : Span → Span) : world → world :=
  set_this (λ t, {| waitUntilUsed := waitUntilUsed t;
                    tracer := on_span f (tracer t) |}).

Definition set_jobs (j : Coordinator.world promise payload) (w : world) : world :=
  {| this := this w; jobs := j; respondWithCalls := respondWithCalls w;
     afterWaitUntil := afterWaitUntil w; waitUntilResolved := waitUntilResolved w;
     batches := batches w |}.

(** Run a method of [this.settler]. *)
Definition in_jobs {A} (m : M (Coordinator.world promise payload) A) : M world A :=
  λ w, let '(r, j) := m (jobs w) in (r, set_jobs j w).

(** [try { m } catch (err) { h(err) }]. *)
Definition try_catch {S A} (m : M S A) (h : error → M S A) : M S A :=
  λ s, match m s with
       | (inl e, s') => h e s'
       | r => r
       end.

Definition startWaitUntil (now : Z) (w : world) : world :=
  on_tracer (at_ref waitUntilSpan (start now))
    (set_this (λ t, {| waitUntilUsed := true; tracer := tracer t |}) w).

Definition finishWaitUntil (error : value) (w : world) : world :=
  if truthy error then
    let w := on_tracer (addData {[ "exception" := VBool true;
                                   "waitUtilException" := VStr (toStringOwn error) ]}) w in
    let w := on_tracer (at_ref waitUntilSpan (addData {[ "exception" := error ]})) w in
    if truthy (getOwn error "stack") then
      on_tracer (at_ref waitUntilSpan
                   (addData {[ "stacktrace" := getOwn error "stack" ]})) w
    else w
  else w.

(** [TraceWrapper.sendEvents].  When the tracer's [sendEvents] throws,
    the promise of this [async] method rejects and the rest does not
    run. *)
Definition sendEvents (random : Q) (w : world) : world :=
  let excludes := if waitUntilUsed (this w) then [] else ["waitUntil"] in
  match Tracer.sendEvents random (Some excludes) (tracer (this w)) with
  | (inr sent, _) =>
      {| this := this w; jobs := jobs w; respondWithCalls := respondWithCalls w;
         afterWaitUntil := afterWaitUntil w;
         waitUntilResolved := true;
         batches := from_option (λ events, events :: batches w) (batches w) sent |}
  | (inl _, _) => w
  end.

(** The callback given to the coordinator. *)
Definition finished (now : Z) (random : Q) (w : world) : world :=
  sendEvents random (on_tracer (at_ref waitUntilSpan (finish now)) w).

(** *** What user code can call *)

Inductive method :=
| AddData (patch : object)
| AddRequest (request : option Request)
| AddResponse (response : option Response) (body : value)
| Start (now : Z)
| Finish (now : Z)
| StartChildSpan (now : Z) (name serviceName : value).

Definition invoke (m : method) : Span → Span :=
  match m with
  | AddData patch => addData patch
  | AddRequest request => addRequest request
  | AddResponse response body => addResponse response body
  | Start now => start now
  | Finish now => finish now
  | StartChildSpan now name serviceName => λ s, (startChildSpan now name serviceName s).1
  end.

Inductive call :=
| WaitUntil (now : Z) (n : nat)      (* [event.waitUntil(p)], [p] the [n]th user promise *)
| RespondWith (n : nat)              (* [event.respondWith(p)] *)
| OnSpan (r : ref) (m : method)      (* a method of [event.request.tracer] or of a span under it *)
| SetSampleRate (r : rate).          (* [event.request.tracer.setSampleRate(r)] *)

(** The [apply] traps of the two proxies, and the tracer's methods. *)
Definition perform (c : call) : M world unit :=
  match c with
  | WaitUntil now n =>
      modify (startWaitUntil now);;'
      let promise := UserPromise n in
      in_jobs (Coordinator.addPromise promise);;'
      modify (λ w, {| this := this w; jobs := jobs w;
                      respondWithCalls := respondWithCalls w;
                      afterWaitUntil := afterWaitUntil w ++ [promise];
                      waitUntilResolved := waitUntilResolved w;
                      batches := batches w |})
  | RespondWith n =>
      let responsePromise := UserPromise n in
      promise ←' gets (λ w, ResponseTask (length (respondWithCalls w)));;
      modify (λ w, {| this := this w; jobs := jobs w;
                      respondWithCalls := respondWithCalls w ++ [responsePromise];
                      afterWaitUntil := afterWaitUntil w;
                      waitUntilResolved := waitUntilResolved w;
                      batches := batches w |});;'
      in_jobs (Coordinator.addPromise promise)
  | OnSpan r m => modify (on_tracer (at_ref r (invoke m)))
  | SetSampleRate r =>
      modify (set_this (λ t, {| waitUntilUsed := waitUntilUsed t;
                                tracer := setSampleRate r (tracer t) |}))
  end.

(** The listener as far as it runs before it returns: the calls it
    makes, and what it throws in the end, if anything. *)
Record Listener := {
  calls : list call;
  thrown : option value;
}.

Fixpoint performAll (cs : list call) : M world unit :=
  match cs with
  | [] => ret tt
  | c :: cs => perform c;;' performAll cs
  end.

Definition listen (l : Listener) : M world unit :=
  performAll (calls l);;'
  match thrown l with
  | Some v => throw (Thrown v)
  | None => ret tt
  end.

Definition setUpRespondWith (now : Z) (l : Listener) : M world unit :=
  try_catch (listen l)
    (λ err, modify (on_tracer (finishResponse now None (errorValue err) VUndefined))).

(** [new TraceWrapper(event, listener, config)] with [request] for
    [event.request]; the three times are what [Date.now()] returns when
    the tracer is made, when the [waitUntil] span is made and in the
    [catch]. *)
Definition newTraceWrapper (now nowSpan nowCatch : Z) (request : option Request)
    (l : Listener) (config : Config) : (error + unit) * world :=
  let tracer := newRequestTracer now request config in
  let tracer := on_span (λ s, (startChildSpan nowSpan (VStr "waitUntil")
                                 (VStr "worker") s).1) tracer in
  setUpRespondWith nowCatch l
    {| this := {| waitUntilUsed := false; tracer := tracer |};
       jobs := Coordinator.constructor;
       respondWithCalls := [];
       afterWaitUntil := [];
       waitUntilResolved := false;
       batches := [] |}.

(** The proxy [epsagon(cfg, listener)] applied to an event. *)
Definition epsagon (cfg : UserConfig) (l : Listener)
    (now nowSpan nowCatch : Z) (request : option Request) : (error + unit) * world :=
  newTraceWrapper now nowSpan nowCatch request l (resolve cfg).

(** *** After the listener has returned *)

Inductive event :=
| Call (c : call)
    (* user code goes on and calls in *)
| Settle (n : nat) (o : Coordinator.outcome payload)
    (* the [n]th user promise settles *)
| AfterWaitUntil (i : nat)
    (* the [i]th waiting [finishWaitUntil] chain runs *)
| Timeout (n : nat) (now : Z) (body : value)
    (* the timer set for the [n]th [respondWith] fires; [body] is what
       has been decoded by then *)
| RunJoin (k : nat) (now : Z) (random : Q).
    (* the coordinator's reaction with [currentLength = k] runs *)

(** What the [then]/[catch] chain of [proxyRespondWith] passes to
    [finishResponse]: the response, or else the reason.  Cloning what is
    not a [Response], or reading the headers of one that has none,
    throws inside [then] and lands in [catch]. *)
Definition respondOutcome (o : Coordinator.outcome payload)
  : option Response * value :=
  match o with
  | Coordinator.Fulfilled (PResponse r) =>
      if response_headers r is Some _ then (Some r, VNull)
      else (None, VError "TypeError" "Cannot read property 'get' of undefined" "")
  | Coordinator.Fulfilled (PValue _) =>
      (None, VError "TypeError" "response.clone is not a function" "")
  | Coordinator.Rejected reason => (None, reasonValue reason)
  end.

Definition settle (p : promise) (o : Coordinator.outcome payload) (w : world)
  : option world :=
  j ← Coordinator.step (jobs w) (Coordinator.Settle p o); Some (set_jobs j w).

Definition step (w : world) (e : event) : option world :=
  match e with
  | Call c =>
      match perform c w with
      | (inr _, w') => Some w'
      | (inl _, _) => None
      end
  | Settle n o => settle (UserPromise n) o w
  | AfterWaitUntil i =>
      p ← afterWaitUntil w !! i;
      o ← Coordinator.settled (jobs w) !! p;
      let error := match o with
                   | Coordinator.Rejected reason => reasonValue reason
                   | Coordinator.Fulfilled _ => VUndefined
                   end in
      Some (finishWaitUntil error
              {| this := this w; jobs := jobs w;
                 respondWithCalls := respondWithCalls w;
                 afterWaitUntil := delete i (afterWaitUntil w);
                 waitUntilResolved := waitUntilResolved w;
                 batches := batches w |})
  | Timeout n now body =>
      source ← respondWithCalls w !! n;
      o ← Coordinator.settled (jobs w) !! source;
      let '(response, reason) := respondOutcome o in
      let w := on_tracer (finishResponse now response reason
                            (if response is Some _ then body else VUndefined)) w in
      settle (ResponseTask n)
             (match response with
              | Some r => Coordinator.Fulfilled (PResponse r)
              | None => Coordinator.Rejected (PValue reason)
              end) w
  | RunJoin k now random =>
      j ← Coordinator.step (jobs w) (Coordinator.RunJoin k);
      let called := negb (length (Coordinator.finishedCalls j) =?
                          length (Coordinator.finishedCalls (jobs w))) in
      let w := set_jobs j w in
      Some (if called then finished now random w else w)
  end.

Fixpoint run (w : world) (es : list event) : option world :=
  match es with
  | [] => Some w
  | e :: es => w' ← step w e; run w' es
  end.

Definition isWaitUntil (c : call) : bool :=
  match c with WaitUntil _ _ => true | _ => false end.

Definition isCall (e : event) : bool :=
  if e is Call _ then true else false.

Definition callsWaitUntil (e : event) : bool :=
  if e is Call c then isWaitUntil c else false.

(** Whether the proxied [waitUntil] is called at all, by the listener or
    later. *)
Definition waitUntilCalled (l : Listener) (es : list event) : bool :=
  existsb isWaitUntil (calls l) || existsb callsWaitUntil es.

(** The world a run ends in (where it started, if it cannot happen). *)
Definition runFrom (w : world) (es : list event) : world :=
  default w (run w es).

(** The array of the latest call of [sendBatch] ([[]] if there is none). *)
Definition lastBatch (w : world) : list object :=
  default [] (head (batches w)).

(** *** What holds of the wrapper all along *)

(** The span made for [waitUntil] is still the tracer's first child. *)
Definition hasWaitUntilSpan (s : Span) : Prop :=
  ∃ ws, childSpans s !! 0 = Some ws ∧ name (eventMeta ws) = VStr "waitUntil".

Definition namedWaitUntil (event : object) : Prop :=
  event !! "name" = Some (VStr "waitUntil").

(** [called] tells whether the proxied [waitUntil] has been called. *)
Record inv (called : bool) (w : world) : Prop := {
  inv_used : waitUntilUsed (this w) = called;
  inv_span : hasWaitUntilSpan (span (tracer (this w)));
  inv_sent : batches w ≠ [] →
             Coordinator.allSettled (Coordinator.settler (jobs w)) = true;
  inv_batches : ∀ batch, batch ∈ batches w →
    if called then ∃ event, event ∈ batch ∧ namedWaitUntil event
    else ∀ event, event ∈ batch → ¬ namedWaitUntil event;
}.

(** A method of [Span] that leaves the name alone, and one that leaves
    the first child in place, under its name. *)
Definition keepsName (f : Span → Span) : Prop :=
  ∀ s, name (eventMeta (f s)) = name (eventMeta s).

Definition keepsFirst (f : Span → Span) : Prop :=
  ∀ s ws, childSpans s !! 0 = Some ws →
          ∃ ws', childSpans (f s) !! 0 = Some ws' ∧
                 name (eventMeta ws') = name (eventMeta ws).


(** The tracer is still named [request], and so is the first event of
    everything sent. *)
Definition startsWithRequest (batch : list object) : Prop :=
  ∃ event, head batch = Some event ∧ event !! "name" = Some (VStr "request").

Record rooted (w : world) : Prop := {
  rooted_name : name (eventMeta (span (tracer (this w)))) = VStr "request";
  rooted_batches : ∀ batch, batch ∈ batches w → startsWithRequest batch;
}.

End Wrapper.

(** ** sendBatch (tracer.js) *)

Module Batch.
Import Tracer.

(** [sendBatch] builds the payload inside [try] and posts it with
    [fetch]; whatever is thrown on the way is logged and dropped.  What
    is kept of it here is every read that can throw, in the order of the
    source, and whether [fetch] is reached.  The identifiers, the times
    and the JSON text the reads go into are left out; making them does
    not throw.  [validURL] tells which values [new URL] accepts. *)

(** [host.replace('https://', '').split('.')[0]]: [replace] is a method
    of strings. *)
Definition replaceSplit {S} (host : value) : M S unit :=
  if nullish host then
    throw (TypeError ("Cannot read property 'replace' of " +:+
                      (if host is VNull then "null" else "undefined")))
  else if host is VStr _ then ret tt
  else throw (TypeError "events[0].request.headers.host.replace is not a function").

(** [trigger_trace] and [runner_trace], which read [events[0]]. *)
Definition readFirst {S} (validURL : value → bool) (events : list object) : M S unit :=
  let first := from_option VObj VUndefined (head events) in
  _ ←' get first "timestamp";;
  _ ←' get first "duration_ms";;
  request ←' get first "request";;
  headers ←' get request "headers";;
  _ ←' get headers "host";;
  _ ←' get request "method";;
  url ←' get request "url";;
  (if validURL url then ret tt else throw (TypeError "Invalid URL"));;'
  host ←' get headers "host";;
  replaceSplit host;;'
  _ ←' get first "response";;
  _ ←' runnerTraceException events;;
  ret tt.

(** One [http_trace], which reads [events[i]] for [i] from 1 on. *)
Definition readLater {S} (event : object) : M S unit :=
  request ←' get (VObj event) "request";;
  _ ←' get request "method";;
  _ ←' get request "headers";;
  response ←' get (VObj event) "response";;
  _ ←' get response "body";;
  _ ←' get response "status";;
  _ ←' get response "url";;
  ret tt.

Fixpoint readAll {S} (events : list object) : M S unit :=
  match events with
  | [] => ret tt
  | event :: events => readLater event;;' readAll events
  end.

(** Whether [sendBatch] gets to call [fetch]. *)
Definition sendBatch {S} (validURL : value → bool) (events : list object) : M S bool :=
  Wrapper.try_catch
    (readFirst validURL events;;'
     readAll (tail events);;'
     ret true)
    (λ error, ret false).

(** What [sendBatch] needs of the first event and of the others. *)
Definition firstIsComplete (validURL : value → bool) (first : object) : Prop :=
  ∃ request headers host,
    first !! "request" = Some request ∧ nullish request = false ∧
    getOwn request "headers" = headers ∧ nullish headers = false ∧
    getOwn headers "host" = VStr host ∧
    validURL (getOwn request "url") = true.

Definition laterIsComplete (event : object) : Prop :=
  nullish (getOwn (VObj event) "request") = false ∧
  nullish (getOwn (VObj event) "response") = false.

End Batch.

(** ** Inputs for the examples *)

Module Samples.
Import Tracer.

(** [GET https://example.com/foo] with a bearer token. *)
Definition request : Request :=
  {| request_headers := Some [("Host", "example.com"); ("Authorization", "Bearer xyz")];
     request_method := VStr "GET";
     request_redirect := VStr "manual";
     request_referrer := VUndefined;
     request_referrerPolicy := VUndefined;
     request_url := VStr "https://example.com/foo" |}.

(** A plain-text [200 OK]. *)
Definition response : Response :=
  {| response_headers := Some [("Content-Type", "text/plain;charset=UTF-8");
                               ("Set-Cookie", "sid=1")];
     response_ok := VBool true;
     response_redirected := VBool false;
     response_status := VNum (inject_Z 200);
     response_statusText := VStr "OK";
     response_url := VStr "" |}.

(** A root with children [A] and [B], [A] with child [A1]. *)
Definition tree : Span :=
  let root := newSpan 0 {| init_name := VStr "root"; init_trace_context := VUndefined;
                           init_service_name := VStr "worker" |}
                      (Wrapper.resolve Wrapper.noOptions) in
  let root := (startChildSpan 1 (VStr "A") VUndefined root).1 in
  let root := (startChildSpan 2 (VStr "B") VUndefined root).1 in
  at_ref [0] (λ a, (startChildSpan 3 (VStr "A1") VUndefined a).1) root.

(** The span [A1] of that tree, a tracer over the tree that samples
    always, and what it sends when [A] is excluded. *)
Definition a1 : Span := default tree (deref [0; 0] tree).

Definition treeTracer : RequestTracer :=
  {| span := tree; sampleRate := Some (Finite 1) |}.

Definition keptEvents : list object :=
  filter (λ e, keepEvent (Some ["A"]) e = true) (parseToEvents tree).

(** A table of rates, and a tracer configured with it. *)
Definition rates : gmap string number :=
  {[ "exception" := Finite 5; "2xx" := Finite 0; "4xx" := Finite 10 ]}.

Definition tableTracer : RequestTracer :=
  newRequestTracer 0 (Some request)
    (Wrapper.resolve (Wrapper.withSampleRates (RateTable rates) Wrapper.noOptions)).

(** [(event) => { event.respondWith(p) }], and a run in which [p]
    fulfils, the timer fires and the coordinator's reaction runs. *)
Definition responds : Wrapper.Listener :=
  {| Wrapper.calls := [Wrapper.RespondWith 0]; Wrapper.thrown := None |}.

Definition respondsRun : list Wrapper.event :=
  [Wrapper.Settle 0 (Coordinator.Fulfilled (Wrapper.PResponse response));
   Wrapper.Timeout 0 5 (VStr "hello");
   Wrapper.RunJoin 1 6 (1 # 2)].

(** The same with [event.waitUntil(q)] before [respondWith]. *)
Definition waitsAndResponds : Wrapper.Listener :=
  {| Wrapper.calls := [Wrapper.WaitUntil 3 1; Wrapper.RespondWith 0];
     Wrapper.thrown := None |}.

Definition waitsAndRespondsRun : list Wrapper.event :=
  [Wrapper.Settle 1 (Coordinator.Fulfilled (Wrapper.PValue VUndefined));
   Wrapper.RunJoin 1 4 (1 # 2);
   Wrapper.AfterWaitUntil 0;
   Wrapper.Settle 0 (Coordinator.Fulfilled (Wrapper.PResponse response));
   Wrapper.Timeout 0 5 (VStr "hello");
   Wrapper.RunJoin 2 6 (1 # 2)].

(** [(event) => { throw Error("boom") }]. *)
Definition throwsBoom : Wrapper.Listener :=
  {| Wrapper.calls := [];
     Wrapper.thrown := Some (VError "Error" "boom" "Error: boom") |}.

(** Where those two runs end. *)
Definition respondsEnd : Wrapper.world :=
  Wrapper.runFrom
    (Wrapper.epsagon Wrapper.noOptions responds 0 1 2 (Some request)).2
    respondsRun.

Definition waitsAndRespondsEnd : Wrapper.world :=
  Wrapper.runFrom
    (Wrapper.epsagon Wrapper.noOptions waitsAndResponds 0 1 2 (Some request)).2
    waitsAndRespondsRun.

(** The world the wrapper leaves when that listener has thrown. *)
Definition afterBoom : Wrapper.world :=
  (Wrapper.epsagon Wrapper.noOptions throwsBoom 0 1 2 (Some request)).2.

(** The same with the table of rates configured. *)
Definition afterBoomWithTable : Wrapper.world :=
  (Wrapper.epsagon (Wrapper.withSampleRates (RateTable rates) Wrapper.noOptions)
     throwsBoom 0 1 2 (Some request)).2.

End Samples.
(** * Properties *)

(** ** The coordinator *)

Section CoordinatorFacts.
Import Coordinator.
Context {P : Type} `{CountP : Countable P} {V : Type}.
Implicit Types (w : world P V) (e : event P V) (es : list (event P V)).

(** The two ways [addPromise] can go. *)
Lemma addPromise_closed w p :
  allSettled (settler w) = true →
  addPromise p w = (inl (Error "All promises have already been settled!"), w).
Proof. intros Hdone. unfold addPromise, bind, gets, throw. simpl. by rewrite Hdone. Qed.

Lemma addPromise_open w p :
  allSettled (settler w) = false →
  addPromise p w =
    (inr tt, then_ {| currentLength := length (promises (settler w) ++ [p]);
                      awaited := promises (settler w) ++ [p] |}
                   (set_settler (push p) w)).
Proof.
  intros Hopen. unfold addPromise, bind, gets, throw, modify. simpl. by rewrite Hopen.
Qed.

Lemma run_app w es1 es2 :
  run w (es1 ++ es2) = w' ← run w es1; run w' es2.
Proof.
  revert w. induction es1 as [|e es1 IH]; intros w; simpl; [done|].
  destruct (step w e) as [w'|]; simpl; [apply IH | done].
Qed.

Lemma inv_constructor : inv (@constructor P _ _ V).
Proof.
  split; simpl; try done.
  - constructor.
  - intros j Hj. by apply elem_of_nil in Hj.
  - auto.
Qed.

Lemma take_join_spec k (js : list (join P)) j rest :
  StronglySorted lt (currentLength <$> js) →
  take_join k js = Some (j, rest) →
  j ∈ js ∧ currentLength j = k ∧
  (∀ j', j' ∈ rest ↔ j' ∈ js ∧ currentLength j' ≠ k) ∧
  StronglySorted lt (currentLength <$> rest).
Proof.
  unfold take_join. intros Hs Hsome.
  destruct (filter _ js) as [|j0 l] eqn:Hf; [done|]. simplify_eq.
  assert (j ∈ filter (λ j, currentLength j = k) js) as Hj by (rewrite Hf; left).
  apply list_elem_of_filter in Hj as [? ?].
  split; [done|]. split; [done|]. split.
  - intros j'. rewrite list_elem_of_filter. tauto.
  - clear -Hs. induction js as [|a js IH]; simpl; [constructor|].
    apply StronglySorted_inv in Hs as [Hs Ha].
    rewrite filter_cons. case_decide; [|by apply IH].
    simpl. constructor; [by apply IH|].
    rewrite Forall_forall in Ha |- *. intros x Hx. apply Ha.
    apply list_elem_of_fmap in Hx as (j' & -> & Hj').
    apply list_elem_of_filter in Hj' as [_ Hj'].
    apply list_elem_of_fmap. eauto.
Qed.

Lemma allSettledResults_insert (sm : gmap P (outcome V)) ps p o results :
  sm !! p = None →
  allSettledResults sm ps = Some results →
  allSettledResults (<[p := o]> sm) ps = Some results.
Proof.
  unfold allSettledResults. rewrite !mapM_Some. intros Hp Hres.
  eapply Forall2_impl; [done|]. simpl. intros q r Hq.
  simpl in *. rewrite lookup_insert_ne; [done|]. congruence.
Qed.

Lemma inv_step w e w' : inv w → step w e = Some w' → inv w'.
Proof.
  intros [Hs Hj Ho Hd] Hstep. destruct e as [p|p o|k]; simpl in Hstep.
  - unfold addPromise, bind, gets, modify, throw in Hstep. simpl in Hstep.
    destruct (allSettled (settler w)) eqn:Hdone; simplify_eq.
    destruct (Ho eq_refl) as [Hcalls Hlast].
    split; unfold lengths; simpl; rewrite ?fmap_app, ?length_app; simpl.
    + apply StronglySorted_app_2; [|done|repeat constructor].
      intros x1 x2 Hx1 ->%list_elem_of_singleton.
      apply list_elem_of_fmap in Hx1 as (j & -> & Hin).
      destruct (Hj j Hin). lia.
    + intros j [Hin| ->%list_elem_of_singleton]%elem_of_app; simpl.
      * destruct (Hj j Hin) as [Hle Haw]. split; [lia|].
        rewrite take_app_le; [done|lia].
      * split; [lia|].
        rewrite take_ge; [done|]. rewrite length_app. simpl. lia.
    + intros _. split; [done|]. right. apply elem_of_app. right.
      by apply list_elem_of_singleton.
    + rewrite Hdone. done.
  - destruct (settled w !! p) eqn:Hp; simplify_eq.
    split; unfold lengths; simpl; try done.
    intros Hdone. destruct (Hd Hdone) as (Hn & results & Hc & Hr).
    split; [done|]. exists results. split; [done|].
    by apply allSettledResults_insert.
  - destruct (take_join k (reactions w)) as [[j rest]|] eqn:Htake; simpl in Hstep; [|done].
    destruct (allSettledResults (settled w) (awaited j)) as [results|] eqn:Hres;
      simpl in Hstep; [|done].
    apply take_join_spec in Htake as (Hin & Hk & Hrest & Hsr); [|done].
    destruct (Hj j Hin) as [Hle Haw].
    simplify_eq. unfold react. simpl.
    destruct (Nat.eqb_spec (currentLength j) (length (promises (settler w)))) as [Heq|Hne].
    + split; unfold lengths; simpl; try done.
      * intros j' Hj'. apply Hrest in Hj' as [Hj' _]. by apply Hj.
      * intros _.
        assert (allSettled (settler w) = false) as Hopen.
        { destruct (allSettled (settler w)) eqn:Hdone; [|done].
          destruct (Hd eq_refl) as [Hn _]. exfalso. apply Hn.
          apply list_elem_of_fmap. eauto. }
        destruct (Ho Hopen) as [Hcalls _]. split.
        -- intros (j' & Hl & Hj')%list_elem_of_fmap. apply Hrest in Hj' as [_ Hj'].
           congruence.
        -- exists results. rewrite Hcalls. split; [done|].
           rewrite Haw, Heq, firstn_all in Hres. done.
    + split; unfold lengths; simpl; try done.
      * intros j' Hj'. apply Hrest in Hj' as [Hj' _]. by apply Hj.
      * intros Hopen. destruct (Ho Hopen) as [Hcalls Hlast]. split; [done|].
        destruct Hlast as [?|Hlast]; [by left|right].
        apply list_elem_of_fmap in Hlast as (j' & Hl & Hj').
        apply list_elem_of_fmap. exists j'. split; [done|].
        apply Hrest. split; [done|]. congruence.
      * intros Hdone. destruct (Hd Hdone) as (Hn & Hex). split; [|done].
        intros (j' & Hl & Hj')%list_elem_of_fmap. apply Hrest in Hj' as [Hj' _].
        apply Hn. apply list_elem_of_fmap. eauto.
Qed.

(** No step takes [allSettled] back, and a step that calls [finished]
    sets it. *)
Lemma step_allSettled w e w' :
  step w e = Some w' → allSettled (settler w) = true →
  allSettled (settler w') = true.
Proof.
  intros Hstep Hdone. destruct e as [p|p o|k]; simpl in Hstep.
  - by rewrite addPromise_closed in Hstep.
  - by destruct (settled w !! p); simplify_eq.
  - destruct (take_join k (reactions w)) as [[j rest]|]; simpl in Hstep; [|done].
    destruct (allSettledResults (settled w) (awaited j)); simpl in Hstep; [|done].
    simplify_eq. unfold react. simpl. by case_match.
Qed.

Lemma step_called w e w' :
  step w e = Some w' →
  length (finishedCalls w') ≠ length (finishedCalls w) →
  allSettled (settler w') = true.
Proof.
  intros Hstep Hne. destruct e as [p|p o|k]; simpl in Hstep.
  - destruct (allSettled (settler w)) eqn:Hdone.
    + by rewrite addPromise_closed in Hstep.
    + rewrite addPromise_open in Hstep by done. by simplify_eq.
  - by destruct (settled w !! p); simplify_eq.
  - destruct (take_join k (reactions w)) as [[j rest]|]; simpl in Hstep; [|done].
    destruct (allSettledResults (settled w) (awaited j)); simpl in Hstep; [|done].
    simplify_eq. unfold react in *. simpl in *. by case_match.
Qed.

Lemma inv_run w es w' : inv w → run w es = Some w' → inv w'.
Proof.
  revert w. induction es as [|e es IH]; intros w Hinv Hrun; simpl in Hrun.
  - by simplify_eq.
  - destruct (step w e) as [w1|] eqn:Hstep; simpl in Hrun; [|done].
    eauto using inv_step.
Qed.

Lemma inv_at_most_once w : inv w → length (finishedCalls w) ≤ 1.
Proof.
  intros [_ _ Ho Hd]. destruct (allSettled (settler w)).
  - destruct (Hd eq_refl) as (_ & results & -> & _). done.
  - destruct (Ho eq_refl) as [-> _]. simpl. lia.
Qed.

(** A step that calls [finished] finds every registered promise
    settled and closes the coordinator. *)
Lemma step_finished w e w' :
  inv w → step w e = Some w' → finishedCalls w' ≠ finishedCalls w →
  (∀ p, p ∈ promises (settler w) → ¬ pending w p) ∧
  allSettled (settler w') = true ∧
  promises (settler w') = promises (settler w).
Proof.
  intros [Hs Hj Ho Hd] Hstep Hne. destruct e as [p|p o|k]; simpl in Hstep.
  - unfold addPromise, bind, gets, modify, throw in Hstep. simpl in Hstep.
    by destruct (allSettled (settler w)); simplify_eq.
  - by destruct (settled w !! p); simplify_eq.
  - destruct (take_join k (reactions w)) as [[j rest]|] eqn:Htake; simpl in Hstep; [|done].
    destruct (allSettledResults (settled w) (awaited j)) as [results|] eqn:Hres;
      simpl in Hstep; [|done].
    apply take_join_spec in Htake as (Hin & Hk & _ & _); [|done].
    destruct (Hj j Hin) as [_ Haw]. simplify_eq. unfold react in Hne |- *. simpl in *.
    destruct (Nat.eqb_spec (currentLength j) (length (promises (settler w)))) as [Heq|]; [|done].
    simpl. split; [|done].
    rewrite Haw, Heq, firstn_all in Hres.
    assert (Forall (is_Some ∘ (λ p, settled w !! p)) (promises (settler w))) as Hall.
    { apply mapM_is_Some. unfold allSettledResults in Hres. by rewrite Hres. }
    rewrite Forall_forall in Hall. intros p Hp Hpend.
    apply Hall in Hp. unfold pending in Hpend. simpl in Hp.
    rewrite Hpend in Hp. by destruct Hp.
Qed.

(** Once [allSettled] is set, no registration succeeds and the list of
    promises stays as it is. *)
Lemma run_closed w es w' :
  allSettled (settler w) = true → run w es = Some w' →
  allSettled (settler w') = true ∧ promises (settler w') = promises (settler w).
Proof.
  revert w. induction es as [|e es IH]; intros w Hdone Hrun; simpl in Hrun.
  - by simplify_eq.
  - destruct (step w e) as [w1|] eqn:Hstep; simpl in Hrun; [|done].
    assert (allSettled (settler w1) = true ∧
            promises (settler w1) = promises (settler w)) as [H1 H2].
    { destruct e as [p|p o|k]; simpl in Hstep.
      - unfold addPromise, bind, gets, modify, throw in Hstep. simpl in Hstep.
        rewrite Hdone in Hstep. done.
      - by destruct (settled w !! p); simplify_eq.
      - destruct (take_join k (reactions w)) as [[j rest]|]; simpl in Hstep; [|done].
        destruct (allSettledResults (settled w) (awaited j)); simpl in Hstep; [|done].
        simplify_eq. unfold react. simpl. by case_match. }
    destruct (IH w1 H1 Hrun) as [? ?]. split; [done|congruence].
Qed.

Lemma inv_exactly_once w :
  inv w → promises (settler w) ≠ [] → reactions w = [] →
  length (finishedCalls w) = 1.
Proof.
  intros [_ _ Ho Hd] Hne Hq. destruct (allSettled (settler w)).
  - destruct (Hd eq_refl) as (_ & results & -> & _). done.
  - destruct (Ho eq_refl) as [_ [?|Hin]]; [done|].
    unfold lengths in Hin. rewrite Hq in Hin. by apply elem_of_nil in Hin.
Qed.

(** C1, as amended.  In every run of registrations, settlements and
    reactions in which no registration is attempted after completion:
    [finished] is called at most once; whenever a step calls it, every
    promise registered before that step has settled, and those are all
    the promises the run ever registers; and if at least one promise was
    registered, then once every promise has settled and every reaction
    has run, [finished] has been called exactly once. *)
Theorem exactly_once_completion es w :
  run constructor es = Some w →
  length (finishedCalls w) ≤ 1 ∧
  (∀ es1 e es2 w1 w2,
      es = es1 ++ e :: es2 → run constructor es1 = Some w1 →
      step w1 e = Some w2 → finishedCalls w2 ≠ finishedCalls w1 →
      (∀ p, p ∈ promises (settler w1) → ¬ pending w1 p) ∧
      promises (settler w1) = promises (settler w)) ∧
  (promises (settler w) ≠ [] → quiescent w → length (finishedCalls w) = 1).
Proof.
  intros Hrun.
  pose proof (inv_run _ _ _ inv_constructor Hrun) as Hinv.
  split; [by apply inv_at_most_once|]. split.
  - intros es1 e es2 w1 w2 -> Hrun1 Hstep Hne.
    pose proof (inv_run _ _ _ inv_constructor Hrun1) as Hinv1.
    destruct (step_finished _ _ _ Hinv1 Hstep Hne) as (Hall & Hdone & Hsame).
    split; [done|].
    rewrite run_app, Hrun1 in Hrun. simpl in Hrun. rewrite Hstep in Hrun. simpl in Hrun.
    destruct (run_closed _ _ _ Hdone Hrun) as [_ ?]. congruence.
  - intros Hne [Hq _]. by apply inv_exactly_once.
Qed.

(** C4.  Once [allSettled] is set, [addPromise] throws
    [Error('All promises have already been settled!')] and leaves the
    coordinator, and everything around it, as it was. *)
Theorem addPromise_after_settled w p :
  allSettled (settler w) = true →
  addPromise p w = (inl (Error "All promises have already been settled!"), w).
Proof. intros H. unfold addPromise, bind, gets, throw. simpl. by rewrite H. Qed.
End CoordinatorFacts.

Section CoordinatorWitnesses.
Import Coordinator.

Lemma exactly_once_completion_witness :
  let es := [Add 0; Add 1; Settle 0 (Fulfilled tt); RunJoin 1;
             Settle 1 (Rejected tt); RunJoin 2] in
  ∃ w, run constructor es = Some w ∧ promises (settler w) = [0; 1] ∧
       finishedCalls w = [[Fulfilled tt; Rejected tt]] ∧
       length (finishedCalls w) = 1.
Proof.
  intros es. eexists. split; [vm_compute; reflexivity|].
  split; [reflexivity|]. split; [reflexivity|].
  apply (exactly_once_completion es); [vm_compute; reflexivity | discriminate |].
  split; [reflexivity|].
  intros p Hp. unfold pending. simpl in Hp.
  apply elem_of_cons in Hp as [->|Hp]; [by vm_compute|].
  apply elem_of_cons in Hp as [->|Hp]; [by vm_compute|].
  by apply elem_of_nil in Hp.
Defined.

(** C1 as stated fails for the empty sequence: with no promise ever
    registered everything is settled, and [finished] has not been called. *)
Lemma completion_needs_a_task :
  ¬ (∀ (es : list (event nat unit)) (w : world nat unit),
        run constructor es = Some w → quiescent w →
        length (finishedCalls w) = 1).
Proof.
  intros H. specialize (H [] constructor eq_refl).
  discriminate H. split; [done|]. intros p Hp. by apply elem_of_nil in Hp.
Qed.

Lemma addPromise_after_settled_witness :
  ∃ w : world nat unit,
    run constructor [Add 0; Settle 0 (Fulfilled tt); RunJoin 1] = Some w ∧
    addPromise 7 w = (inl (Error "All promises have already been settled!"), w).
Proof.
  eexists. split; [vm_compute; reflexivity|].
  apply addPromise_after_settled. reflexivity.
Defined.
End CoordinatorWitnesses.

(** ** Headers *)

Section HeaderFacts.
Import Tracer.







End HeaderFacts.

Section HeaderWitnesses.
Import Tracer.

End HeaderWitnesses.

(** ** Spans *)

Section SpanFacts.
Import Tracer.

(** Induction on a span, with the property at hand for its children. *)
Lemma Span_induction (P : Span → Prop) :
  (∀ c d cs m, Forall P cs → P (mkSpan c d cs m)) → ∀ s, P s.
Proof.
  intros Hstep. fix IH 1. intros [c d cs m]. apply Hstep.
  induction cs as [|s cs IHcs]; constructor; [apply IH | apply IHcs].
Qed.

Lemma ref_lt_cons i r r' : ref_lt (i :: r) (i :: r') ↔ ref_lt r r'.
Proof. simpl. split; [intros [?|[_ ?]]; [lia|done] | auto]. Qed.

Lemma elem_of_refsFrom i (ls : list (list ref)) r :
  r ∈ refsFrom i ls ↔ ∃ j l r', r = (i + j) :: r' ∧ ls !! j = Some l ∧ r' ∈ l.
Proof.
  revert i. induction ls as [|l ls IH]; intros i; simpl.
  - split; [by intros ?%elem_of_nil | by intros (j & l & r' & _ & ? & _)].
  - rewrite elem_of_app, IH. split.
    + intros [(r' & -> & Hr')%list_elem_of_fmap | (j & l' & r' & -> & Hj & Hr')].
      * exists 0, l, r'. by rewrite Nat.add_0_r.
      * exists (S j), l', r'. split; [f_equal; lia | done].
    + intros (j & l' & r' & -> & Hj & Hr'). destruct j as [|j]; simpl in Hj.
      * left. simplify_eq. rewrite Nat.add_0_r. apply list_elem_of_fmap. eauto.
      * right. exists j, l', r'. split; [f_equal; lia | done].
Qed.

Lemma refsFrom_sorted i (ls : list (list ref)) :
  Forall (StronglySorted ref_lt) ls → StronglySorted ref_lt (refsFrom i ls).
Proof.
  revert i. induction ls as [|l ls IH]; intros i Hls; simpl; [constructor|].
  apply Forall_cons in Hls as [Hl Hls].
  apply StronglySorted_app_2; [| |by apply IH].
  - intros x1 x2 (r1 & -> & _)%list_elem_of_fmap (j & l' & r' & -> & _)%elem_of_refsFrom.
    simpl. left. lia.
  - clear -Hl. induction Hl as [|r l Hl IHl Hr]; simpl; constructor; [done|].
    rewrite Forall_forall in Hr |- *.
    intros x (r' & -> & Hr')%list_elem_of_fmap. apply ref_lt_cons. auto.
Qed.

Lemma parseToEvents_refsFrom i (cs : list Span) :
  Forall (λ c, Forall2 (λ event r, toEvent <$> deref r c = Some event)
                       (parseToEvents c) (refs c)) cs →
  Forall2 (λ event r, ∃ j r' c, r = (i + j) :: r' ∧ cs !! j = Some c ∧
                                toEvent <$> deref r' c = Some event)
          (concat (map parseToEvents cs)) (refsFrom i (map refs cs)).
Proof.
  revert i. induction cs as [|c cs IH]; intros i Hcs; simpl; [constructor|].
  apply Forall_cons in Hcs as [Hc Hcs]. apply Forall2_app.
  - apply Forall2_fmap_r. eapply Forall2_impl; [done|]. simpl.
    intros event r Hr. exists 0, r, c. by rewrite Nat.add_0_r.
  - eapply Forall2_impl; [by apply IH|]. simpl.
    intros event r (j & r' & c' & -> & Hj & Hr'). exists (S j), r', c'.
    split; [f_equal; lia | done].
Qed.

Lemma ref_lt_asym r r' : ref_lt r r' → ref_lt r' r → False.
Proof.
  revert r'. induction r as [|i r IH]; intros [|j r']; simpl; try done.
  intros [?|[-> ?]] [?|[? ?]]; try lia. eauto.
Qed.

Lemma ref_lt_under r k r' : ref_lt r (r ++ k :: r').
Proof. induction r as [|i r IH]; simpl; auto. Qed.

Lemma ref_lt_sibling p a b r r' : a < b → ref_lt (p ++ a :: r) (p ++ b :: r').
Proof. intros Hab. induction p as [|i p IH]; simpl; auto. Qed.

(** In a list sorted by [ref_lt], what is smaller stands earlier. *)
Lemma sorted_position (l : list ref) i j r r' :
  StronglySorted ref_lt l → l !! i = Some r → l !! j = Some r' →
  ref_lt r r' → i < j.
Proof.
  intros Hl Hi Hj Hlt. destruct (Nat.lt_trichotomy i j) as [?|[->|Hji]]; [done| |].
  - simplify_eq. destruct (ref_lt_asym _ _ Hlt Hlt).
  - exfalso. apply (ref_lt_asym _ _ Hlt).
    rewrite <- (take_drop_middle l i r) in Hl by done.
    apply StronglySorted_app_1_elem_of with (x1 := r') (x2 := r) in Hl; [done| |by left].
    apply list_elem_of_lookup. exists j. rewrite lookup_take_lt by done. done.
Qed.

(** C8.  [parseToEvents] lists the event of every span under [s], one
    for one with the references [refs s], which are exactly the
    references to existing spans; they are in pre-order, so the event of
    a span stands before the event of any span under it, and the events
    under an earlier child stand before those under a later child. *)
Theorem parseToEvents_preorder (s : Span) :
  Forall2 (λ event r, toEvent <$> deref r s = Some event)
          (parseToEvents s) (refs s) ∧
  (∀ r, r ∈ refs s ↔ is_Some (deref r s)) ∧
  StronglySorted ref_lt (refs s) ∧
  (∀ i j r k r', refs s !! i = Some r → refs s !! j = Some (r ++ k :: r') → i < j) ∧
  (∀ i j p a b r r', refs s !! i = Some (p ++ a :: r) →
                     refs s !! j = Some (p ++ b :: r') → a < b → i < j).
Proof.
  assert (Forall2 (λ event r, toEvent <$> deref r s = Some event)
                  (parseToEvents s) (refs s) ∧
          (∀ r, r ∈ refs s ↔ is_Some (deref r s)) ∧
          StronglySorted ref_lt (refs s)) as (Hevents & Hrefs & Hsorted).
  { induction s as [c d cs m IH] using Span_induction.
    split; [|split].
    - simpl. constructor; [done|].
      eapply Forall2_impl.
      + apply parseToEvents_refsFrom. eapply Forall_impl; [done|]. by intros ? (? & _).
      + simpl. intros event r (j & r' & c' & -> & Hj & Hr'). simpl. by rewrite Hj.
    - intros r. simpl. rewrite elem_of_cons, elem_of_refsFrom. split.
      + intros [->|(j & l & r' & -> & Hj & Hr')]; [by eexists|]. simpl.
        rewrite list_lookup_fmap in Hj.
        destruct (cs !! j) as [c'|] eqn:Hc; simpl in Hj; [|done]. simplify_eq.
        rewrite Forall_forall in IH. simpl.
        apply (IH c'); [by eapply list_elem_of_lookup_2 | done].
      + destruct r as [|j r']; [by left|]. simpl. intros Hsome. right.
        destruct (cs !! j) as [c'|] eqn:Hc; simpl in Hsome; [|by destruct Hsome].
        exists j, (refs c'), r'. split; [done|]. split.
        * by rewrite list_lookup_fmap, Hc.
        * rewrite Forall_forall in IH.
          apply (IH c'); [by eapply list_elem_of_lookup_2 | done].
    - simpl. constructor.
      + apply refsFrom_sorted. apply Forall_fmap. eapply Forall_impl; [done|].
        by intros ? (_ & _ & ?).
      + apply Forall_forall. intros r (j & l & r' & -> & _)%elem_of_refsFrom. done. }
  repeat split; try done.
  - by apply Hrefs.
  - by apply Hrefs.
  - intros i j r k r' Hi Hj. eapply sorted_position; eauto using ref_lt_under.
  - intros i j p a b r r' Hi Hj Hab. eapply sorted_position; eauto using ref_lt_sibling.
Qed.

End SpanFacts.

Section SpanExamples.
Import Tracer.

Lemma parseToEvents_preorder_witness :
  (λ event : object, event !! "name") <$> parseToEvents Samples.tree =
    [Some (VStr "root"); Some (VStr "A"); Some (VStr "A1"); Some (VStr "B")] ∧
  refs Samples.tree = [[]; [0]; [0; 0]; [1]] ∧
  1 < 2 ∧ 2 < 3.
Proof.
  destruct (parseToEvents_preorder Samples.tree) as (_ & _ & _ & Hunder & Hsibling).
  split; [vm_compute; reflexivity|]. split; [vm_compute; reflexivity|]. split.
  - exact (Hunder 1 2 [0] 0 [] eq_refl eq_refl).
  - refine (Hsibling 2 3 [] 0 1 [0] [] eq_refl eq_refl _). lia.
Defined.
End SpanExamples.

(** ** Events *)

Section EventFacts.
Import Tracer.

Lemma metaObject_lookup (m : EventMeta) :
  metaObject m !! "name" = Some (name m) ∧
  metaObject m !! "timestamp" = Some (VNum (inject_Z (timestamp m))) ∧
  metaObject m !! "trace" = Some (trace m) ∧
  metaObject m !! "service_name" = Some (service_name m) ∧
  metaObject m !! "duration_ms" = (λ d, VNum (inject_Z d)) <$> duration_ms m.
Proof.
  unfold metaObject. destruct (duration_ms m) as [d|]; simpl.
  - repeat split; by simplify_map_eq.
  - repeat split; by simplify_map_eq.
Qed.

(** C10, as amended.  After [addData], the event of a span, which is
    the head of what [parseToEvents] returns, takes [name], [timestamp],
    [trace] and [service_name] from the metadata whatever the data say,
    and [duration_ms] too once the span has been finished; until then
    its [duration_ms] is the one in the data, if any. *)
Theorem metadata_overrides_data (s : Span) (patch : object) :
  let s' := addData patch s in
  head (parseToEvents s') = Some (toEvent s') ∧
  toEvent s' !! "name" = Some (name (eventMeta s)) ∧
  toEvent s' !! "timestamp" = Some (VNum (inject_Z (timestamp (eventMeta s)))) ∧
  toEvent s' !! "trace" = Some (trace (eventMeta s)) ∧
  toEvent s' !! "service_name" = Some (service_name (eventMeta s)) ∧
  (∀ d, duration_ms (eventMeta s) = Some d →
        toEvent s' !! "duration_ms" = Some (VNum (inject_Z d))) ∧
  (duration_ms (eventMeta s) = None →
   toEvent s' !! "duration_ms" = (patch ∪ spanData s) !! "duration_ms").
Proof.
  intros s'. destruct (metaObject_lookup (eventMeta s)) as (Hn & Ht & Htr & Hs & Hd).
  unfold toEvent. subst s'. destruct s as [c d cs m]. simpl in *.
  split; [done|].
  repeat split.
  - by apply lookup_union_Some_l.
  - by apply lookup_union_Some_l.
  - by apply lookup_union_Some_l.
  - by apply lookup_union_Some_l.
  - intros dur Hdur. apply lookup_union_Some_l. by rewrite Hd, Hdur.
  - intros Hdur. rewrite Hdur in Hd. simpl in Hd. by rewrite lookup_union_r.
Qed.
End EventFacts.

Section EventWitnesses.
Import Tracer.

Lemma metadata_overrides_data_witness :
  let s := finish 12 (newSpan 5 {| init_name := VStr "request";
                                   init_trace_context := VUndefined;
                                   init_service_name := VStr "worker" |}
                              (Wrapper.resolve Wrapper.noOptions)) in
  let e := toEvent (addData {[ "name" := VStr "other"; "duration_ms" := VNum (Finite 42) ]} s) in
  e !! "name" = Some (VStr "request") ∧
  e !! "duration_ms" = Some (VNum (inject_Z 7)).
Proof.
  intros s e.
  destruct (metadata_overrides_data s
              {[ "name" := VStr "other"; "duration_ms" := VNum (Finite 42) ]})
    as (_ & Hname & _ & _ & _ & Hdur & _).
  split; [exact Hname|]. apply Hdur. reflexivity.
Defined.

(** C10 as stated fails before [finish]: there is no [duration_ms] in
    the metadata yet, and one written with [addData] is what the event
    reports. *)
Lemma addData_sets_duration_ms_before_finish :
  ¬ (∀ (s : Span) (patch : object) (k : string),
        k ∈ ["name"; "timestamp"; "duration_ms"; "trace"; "service_name"] →
        toEvent (addData patch s) !! k = metaObject (eventMeta s) !! k).
Proof.
  intros Hclaim.
  specialize (Hclaim
    (newSpan 5 {| init_name := VStr "request"; init_trace_context := VUndefined;
                  init_service_name := VStr "worker" |}
             (Wrapper.resolve Wrapper.noOptions))
    {[ "duration_ms" := VNum (Finite 42) ]} "duration_ms").
  vm_compute in Hclaim. discriminate Hclaim.
  repeat constructor.
Qed.
End EventWitnesses.

(** ** Child spans *)

Section ChildFacts.
Import Tracer.

(** What [startChildSpan] does, for any span: the child is pushed and
    handed back, under the given name, with the given service name if it
    is truthy and the parent's otherwise; its trace context is
    [undefined] whatever the parent's is. *)
Lemma startChildSpan_spec now (name' serviceName : value) (s : Span) :
  let '(s', child) := startChildSpan now name' serviceName s in
  childSpans s' = childSpans s ++ [child] ∧
  spanData s' = spanData s ∧ eventMeta s' = eventMeta s ∧
  deref [length (childSpans s)] s' = Some child ∧
  name (eventMeta child) = name' ∧
  service_name (eventMeta child) =
    (if truthy serviceName then serviceName else service_name (eventMeta s)) ∧
  trace (eventMeta child) = VUndefined ∧
  timestamp (eventMeta child) = now ∧
  childSpans child = [] ∧ spanData child = ∅ ∧ config child = config s.
Proof.
  simpl. repeat split. rewrite lookup_app_r by done.
  by rewrite Nat.sub_diag.
Qed.
End ChildFacts.

Section ChildExamples.
Import Tracer.

End ChildExamples.

(** ** Sampling *)

Section SamplingFacts.
Import Tracer.

(** [getSampleRate] reads and never writes. *)
Lemma getSampleRate_state (data : object) (t : RequestTracer) :
  (getSampleRate data t).2 = t.
Proof.
  unfold getSampleRate, bind, gets, ret, get, toString, throw. simpl.
  destruct (sampleRate t); [done|].
  destruct (sampleRates (config (span t))); [done|].
  generalize (default VUndefined (data !! "response")). intros response.
  destruct (truthy response), (nullish response); simpl; try done;
    generalize (getOwn response "status"); intros status;
    destruct (truthy status), (nullish status); done.
Qed.

(** With a table and no override, a span without a captured response
    makes [getSampleRate] throw: the second operand of [&&] reads
    [status] of [undefined]. *)
Lemma getSampleRate_table_no_response (data : object) (t : RequestTracer) table :
  sampleRate t = None →
  sampleRates (config (span t)) = RateTable table →
  data !! "response" = None →
  getSampleRate data t =
    (inl (TypeError "Cannot read property 'status' of undefined"), t).
Proof.
  intros Ho Ht Hd. unfold getSampleRate, bind, gets, ret, get, throw. simpl.
  by rewrite Ho, Ht, Hd.
Qed.

Lemma numberToString_integer (z : Z) :
  numberToString (Finite (inject_Z z)) = pretty z.
Proof.
  assert (Qred (inject_Z z) = inject_Z z) as Hred.
  { unfold Qred, inject_Z.
    pose proof (Z.ggcd_gcd z 1) as Hg. pose proof (Z.ggcd_correct_divisors z 1) as Hd.
    destruct (Z.ggcd z 1) as [g [aa bb]]. simpl in Hg, Hd.
    rewrite Z.gcd_1_r in Hg. subst g. destruct Hd as [Ha Hb].
    rewrite Z.mul_1_l in Ha, Hb. by subst. }
  unfold numberToString. rewrite Hred. unfold is_integer. rewrite Hred. reflexivity.
Qed.

(** With a captured response whose status is an integer, the entry for
    its first digit, or [1] if that entry is not there or is falsy. *)
Lemma getSampleRate_table_status (data response : object) (t : RequestTracer)
    table (status : Z) :
  sampleRate t = None →
  sampleRates (config (span t)) = RateTable table →
  data !! "response" = Some (VObj response) →
  response !! "status" = Some (VNum (inject_Z status)) →
  getSampleRate data t =
    (inr (let entry := table !! (firstChar (pretty status) +:+ "xx") in
          if rate_truthy entry then entry else Some (Finite 1)), t).
Proof.
  intros Ho Ht Hd Hs.
  unfold getSampleRate, bind, gets, get, toString, ret, throw, getOwn.
  rewrite Ho, Ht, Hd.
  cbv beta iota delta [default from_option id truthy negb nullish].
  rewrite Hs.
  cbv beta iota delta [default from_option id truthy negb nullish toStringOwn].
  by rewrite numberToString_integer.
Qed.

Lemma sampled_one (q random : Q) :
  (q == 1)%Q → (random < 1)%Q → sampled (Some (Finite q)) random = true.
Proof.
  intros Hq Hr. unfold sampled. simpl.
  assert (Qle_bool 1 q = true) as -> by (apply Qle_bool_iff; rewrite Hq; apply Qle_refl).
  assert (Qeq_bool q 0 = false) as ->.
  { apply not_true_is_false. intros H0%Qeq_bool_iff. rewrite Hq in H0. discriminate. }
  simpl. apply negb_true_iff, not_true_is_false. intros Hle%Qle_bool_iff.
  rewrite Hq in Hle. apply (Qlt_not_le _ _ Hr). exact Hle.
Qed.

Lemma sampled_below_one (r : rate) (random : Q) :
  r = None ∨ (∃ n, r = Some n ∧ num_lt n (Finite 1) = true) →
  sampled r random = false.
Proof.
  intros [->|(n & -> & Hn)]; [done|]. unfold sampled. simpl.
  destruct n as [|[]|q]; simpl in *; try done.
  apply negb_true_iff in Hn. by rewrite Hn.
Qed.

(** C3.  Whatever [Math.random()] returns in [[0, 1)]: if the
    effective sample rate is 1, [sendBatch] is called with the events
    that are not excluded; if it is [undefined] or a number below 1 (0
    included), [sendBatch] is not called. *)
Theorem sendEvents_sampling (t : RequestTracer) (excludeSpans : option (list string))
    (random : Q) (r : rate) :
  (0 <= random)%Q → (random < 1)%Q →
  (getSampleRate (spanData (span t)) t).1 = inr r →
  ((∃ q, r = Some (Finite q) ∧ (q == 1)%Q) →
   sendEvents random excludeSpans t =
     (inr (Some (filter (λ e, keepEvent excludeSpans e = true)
                        (parseToEvents (span t)))), t)) ∧
  (r = None ∨ (∃ n, r = Some n ∧ num_lt n (Finite 1) = true) →
   sendEvents random excludeSpans t = (inr None, t)).
Proof.
  intros _ Hlt Hrate.
  pose proof (getSampleRate_state (spanData (span t)) t) as Hstate.
  destruct (getSampleRate (spanData (span t)) t) as [res t'] eqn:Hget.
  simpl in *. subst.
  split.
  - intros (q & -> & Hq). unfold sendEvents, bind, gets, ret. simpl.
    rewrite Hget. by rewrite sampled_one.
  - intros Hbelow. unfold sendEvents, bind, gets, ret. simpl.
    rewrite Hget. by rewrite sampled_below_one.
Qed.
End SamplingFacts.

Section SamplingExamples.
Import Tracer.

(** C2 at a tracer with a table of rates, no override and no captured
    response: [getSampleRate] throws a [TypeError] instead of returning
    the table's [exception] entry. *)
Example getSampleRate_without_response_throws :
  let table : gmap string number := {[ "exception" := Finite 5; "2xx" := Finite 10 ]} in
  let config := Wrapper.resolve (Wrapper.withSampleRates (RateTable table) Wrapper.noOptions) in
  let t := newRequestTracer 0 (Some Samples.request) config in
  spanData (span t) !! "response" = None ∧
  sampleRate t = None ∧
  getSampleRate (spanData (span t)) t =
    (inl (TypeError "Cannot read property 'status' of undefined"), t).
Proof. split; [|split]; vm_compute; reflexivity. Qed.

Lemma sendEvents_sampling_witness :
  let t := newRequestTracer 0 (Some Samples.request) (Wrapper.resolve Wrapper.noOptions) in
  sendEvents (1 # 2) (Some ["waitUntil"]) t =
    (inr (Some (filter (λ e, keepEvent (Some ["waitUntil"]) e = true)
                       (parseToEvents (span t)))), t) ∧
  sendEvents (1 # 2) (Some ["waitUntil"]) (setSampleRate (Some (Finite 0)) t) =
    (inr None, setSampleRate (Some (Finite 0)) t).
Proof.
  intros t.
  assert (0 <= 1 # 2)%Q as H0 by (by vm_compute).
  assert (1 # 2 < 1)%Q as H1 by (by vm_compute).
  split.
  - refine (proj1 (sendEvents_sampling t (Some ["waitUntil"]) (1 # 2)
                     (Some (Finite 1)) H0 H1 _) _).
    + vm_compute; reflexivity.
    + exists 1%Q. split; reflexivity.
  - refine (proj2 (sendEvents_sampling (setSampleRate (Some (Finite 0)) t)
                     (Some ["waitUntil"]) (1 # 2) (Some (Finite 0)) H0 H1 _) _).
    + vm_compute; reflexivity.
    + right. exists (Finite 0). split; reflexivity.
Defined.
End SamplingExamples.

(** ** The wrapper *)

Section WrapperFacts.
Import Tracer Wrapper.

Local Arguments Coordinator.step : simpl never.

Lemma invoke_keepsName m : keepsName (invoke m).
Proof. intros s. destruct m as [?|[?|]|[?|] ?| | |]; reflexivity. Qed.

Lemma invoke_keepsFirst m : keepsFirst (invoke m).
Proof.
  intros s ws Hws. destruct m as [?|[?|]|[?|] ?| | |]; simpl; eauto.
  exists ws. split; [|done]. rewrite lookup_app_l; [done|].
  by eapply lookup_lt_Some.
Qed.

Lemma at_ref_keepsName r f : keepsName f → keepsName (at_ref r f).
Proof. intros Hf s. destruct r; simpl; [apply Hf | done]. Qed.

Lemma at_ref_keepsFirst r f : keepsName f → keepsFirst f → keepsFirst (at_ref r f).
Proof.
  intros Hn Hf s ws Hws. destruct r as [|i r]; simpl; [by apply Hf|].
  destruct i as [|i].
  - exists (at_ref r f ws). split; [|by apply at_ref_keepsName].
    by rewrite list_lookup_alter, Hws.
  - exists ws. split; [|done]. by rewrite list_lookup_alter_ne.
Qed.

Lemma finishResponse_keepsFirst now response error body :
  keepsFirst (finishResponse now response error body).
Proof.
  intros s ws Hws. exists ws. split; [|done]. unfold finishResponse.
  destruct response; simpl; [done|]. by destruct (truthy error).
Qed.

Lemma keepsFirst_hasWaitUntilSpan f s :
  keepsFirst f → hasWaitUntilSpan s → hasWaitUntilSpan (f s).
Proof.
  intros Hf (ws & Hws & Hname). destruct (Hf s ws Hws) as (ws' & ? & Hn).
  exists ws'. split; [done|]. congruence.
Qed.

Lemma start_keepsName now : keepsName (start now).
Proof. done. Qed.
Lemma finish_keepsName now : keepsName (finish now).
Proof. done. Qed.
Lemma addData_keepsName patch : keepsName (addData patch).
Proof. done. Qed.
Lemma start_keepsFirst now : keepsFirst (start now).
Proof. intros s ws ?. eauto. Qed.
Lemma finish_keepsFirst now : keepsFirst (finish now).
Proof. intros s ws ?. eauto. Qed.
Lemma addData_keepsFirst patch : keepsFirst (addData patch).
Proof. intros s ws ?. eauto. Qed.

Lemma inv_on_tracer called f w :
  keepsFirst f → inv called w → inv called (on_tracer f w).
Proof.
  intros Hf [Hu Hs Hsent Hb]. split; simpl; try done.
  by apply keepsFirst_hasWaitUntilSpan.
Qed.

Lemma finishWaitUntil_inv called error w :
  inv called w → inv called (finishWaitUntil error w).
Proof.
  intros Hinv. unfold finishWaitUntil. destruct (truthy error); [|done].
  destruct (truthy (getOwn error "stack")).
  - repeat apply inv_on_tracer; try done;
      auto using addData_keepsFirst, at_ref_keepsFirst, addData_keepsName.
  - repeat apply inv_on_tracer; try done;
      auto using addData_keepsFirst, at_ref_keepsFirst, addData_keepsName.
Qed.

Lemma sendEvents_events random excludeSpans (t t' : RequestTracer) events :
  Tracer.sendEvents random excludeSpans t = (inr (Some events), t') →
  events = filter (λ e, keepEvent excludeSpans e = true) (parseToEvents (span t)).
Proof.
  unfold Tracer.sendEvents, bind, gets, ret.
  pose proof (getSampleRate_state (spanData (span t)) t) as Hstate.
  destruct (getSampleRate (spanData (span t)) t) as [[e|r] t1]; [done|].
  simpl in Hstate. subst t1.
  destruct (sampled r random); [|done]. by intros [= <-].
Qed.

Lemma toEvent_name (s : Span) : toEvent s !! "name" = Some (name (eventMeta s)).
Proof.
  unfold toEvent. apply lookup_union_Some_l. unfold metaObject.
  destruct (duration_ms (eventMeta s)); by simplify_map_eq.
Qed.

Lemma parseToEvents_child (s c : Span) i :
  childSpans s !! i = Some c → toEvent c ∈ parseToEvents s.
Proof.
  intros Hc. destruct s as [cfg d cs m]. simpl in *. right.
  apply list_elem_of_In, in_concat. exists (parseToEvents c). split.
  - apply in_map, list_elem_of_In. by eapply list_elem_of_lookup_2.
  - destruct c. simpl. by left.
Qed.

Lemma sendEvents_inv called random w :
  inv called w →
  Coordinator.allSettled (Coordinator.settler (jobs w)) = true →
  inv called (sendEvents random w).
Proof.
  intros [Hu Hs Hsent Hb] Hdone. unfold sendEvents.
  destruct (Tracer.sendEvents _ _ _) as [[e|[events|]] t'] eqn:Hsend;
    [done| |by split].
  apply sendEvents_events in Hsend. split; simpl; try done.
  intros batch [->|Hin]%elem_of_cons; [|by apply Hb].
  rewrite Hu in Hsend. destruct called.
  - destruct Hs as (ws & Hws & Hname).
    exists (toEvent ws). split.
    + subst events. apply list_elem_of_filter. split; [|by eapply parseToEvents_child].
      unfold keepEvent, includes. by destruct (getOwn _ _).
    + unfold namedWaitUntil. by rewrite toEvent_name, Hname.
  - intros event Hevent Hnamed. subst events.
    apply list_elem_of_filter in Hevent as [Hkeep _].
    unfold keepEvent, includes, getOwn in Hkeep. unfold namedWaitUntil in Hnamed.
    rewrite Hnamed in Hkeep. simpl in Hkeep. done.
Qed.

Lemma perform_inv called c w w' :
  inv called w → perform c w = (inr tt, w') → inv (called || isWaitUntil c) w'.
Proof.
  intros [Hu Hs Hsent Hb] Hperf. destruct c as [now n|n|r m|rate]; simpl in *.
  - unfold bind, modify, in_jobs, gets in Hperf. simpl in Hperf.
    destruct (Coordinator.allSettled (Coordinator.settler (jobs w))) eqn:Hdone.
    { by rewrite addPromise_closed in Hperf. }
    rewrite addPromise_open in Hperf by done. simplify_eq.
    assert (batches w = []) as Hnone.
    { destruct (decide (batches w = [])) as [|Hne]; [done|].
      apply Hsent in Hne. congruence. }
    rewrite orb_true_r. split; simpl; try done.
    + apply (keepsFirst_hasWaitUntilSpan (at_ref waitUntilSpan (start now))); [|done].
      apply at_ref_keepsFirst; [apply start_keepsName | apply start_keepsFirst].
    + rewrite Hnone. by intros batch ?%elem_of_nil.
  - unfold bind, modify, in_jobs, gets in Hperf. simpl in Hperf.
    destruct (Coordinator.allSettled (Coordinator.settler (jobs w))) eqn:Hdone.
    { by rewrite addPromise_closed in Hperf. }
    rewrite addPromise_open in Hperf by done. simplify_eq.
    rewrite orb_false_r. split; simpl; try done.
    intros Hne. by apply Hsent in Hne.
  - unfold modify in Hperf. simplify_eq. rewrite orb_false_r.
    apply inv_on_tracer; [|done].
    apply at_ref_keepsFirst; [apply invoke_keepsName | apply invoke_keepsFirst].
  - unfold modify in Hperf. simplify_eq. rewrite orb_false_r. by split.
Qed.

(** While [allSettled] is not set, the proxies do not throw, and nothing
    they do sets it. *)
Lemma perform_open c w :
  Coordinator.allSettled (Coordinator.settler (jobs w)) = false →
  ∃ w', perform c w = (inr tt, w') ∧
        Coordinator.allSettled (Coordinator.settler (jobs w')) = false.
Proof.
  intros Hopen. destruct c as [now n|n|r m|rate]; simpl.
  - unfold bind, modify, in_jobs, gets. simpl.
    rewrite addPromise_open by done. simpl. eauto.
  - unfold bind, modify, in_jobs, gets. simpl.
    rewrite addPromise_open by done. simpl. eauto.
  - unfold modify. eauto.
  - unfold modify. eauto.
Qed.

Lemma performAll_inv called cs w :
  inv called w →
  Coordinator.allSettled (Coordinator.settler (jobs w)) = false →
  ∃ w', performAll cs w = (inr tt, w') ∧
        inv (called || existsb isWaitUntil cs) w' ∧
        Coordinator.allSettled (Coordinator.settler (jobs w')) = false.
Proof.
  revert called w. induction cs as [|c cs IH]; intros called w Hinv Hopen; simpl.
  - exists w. by rewrite orb_false_r.
  - destruct (perform_open c w Hopen) as (w1 & Hperf & Hopen1).
    unfold bind. rewrite Hperf.
    destruct (IH _ w1 (perform_inv _ _ _ _ Hinv Hperf) Hopen1) as (w' & Hall & Hinv' & ?).
    exists w'. split; [done|]. split; [|done]. by rewrite orb_assoc.
Qed.

Lemma inv_set_jobs called j w :
  inv called w →
  (Coordinator.allSettled (Coordinator.settler (jobs w)) = true →
   Coordinator.allSettled (Coordinator.settler j) = true) →
  inv called (set_jobs j w).
Proof. intros [Hu Hs Hsent Hb] Hj. split; simpl; auto. Qed.

Lemma settle_inv called p o w w' :
  inv called w → settle p o w = Some w' → inv called w'.
Proof.
  intros Hinv Hsettle. unfold settle in Hsettle.
  destruct (Coordinator.step (jobs w) (Coordinator.Settle p o)) as [j|] eqn:Hstep;
    simpl in Hsettle; [|done].
  simplify_eq. apply inv_set_jobs; [done|]. by eapply step_allSettled.
Qed.

Lemma step_inv called e w w' :
  inv called w → step w e = Some w' → inv (called || callsWaitUntil e) w'.
Proof.
  intros Hinv Hstep. destruct e as [c|n o|i|n now body|k now random]; simpl in *.
  - destruct (perform c w) as [[err|[]] w1] eqn:Hperf; [done|]. simplify_eq.
    by eapply perform_inv.
  - rewrite orb_false_r. by eapply settle_inv.
  - rewrite orb_false_r.
    destruct (afterWaitUntil w !! i) as [p|]; simpl in Hstep; [|done].
    destruct (Coordinator.settled (jobs w) !! p) as [o|]; simpl in Hstep; [|done].
    simplify_eq. apply finishWaitUntil_inv. by destruct Hinv.
  - rewrite orb_false_r.
    destruct (respondWithCalls w !! n) as [p|]; simpl in Hstep; [|done].
    destruct (Coordinator.settled (jobs w) !! p) as [o|]; simpl in Hstep; [|done].
    destruct (respondOutcome o) as [response reason].
    eapply settle_inv; [|done].
    apply inv_on_tracer; [apply finishResponse_keepsFirst | done].
  - rewrite orb_false_r.
    destruct (Coordinator.step (jobs w) (Coordinator.RunJoin k)) as [j|] eqn:Hjob;
      simpl in Hstep; [|done].
    simplify_eq.
    assert (inv called (set_jobs j w)) as Hinv'.
    { apply inv_set_jobs; [done|]. by eapply step_allSettled. }
    destruct (Nat.eqb_spec (length (Coordinator.finishedCalls j))
                (length (Coordinator.finishedCalls (jobs w)))) as [Heq|Hne];
      simpl; [done|].
    unfold finished. apply sendEvents_inv.
    + apply inv_on_tracer; [|done].
      apply at_ref_keepsFirst; [apply finish_keepsName | apply finish_keepsFirst].
    + simpl. by eapply step_called.
Qed.

Lemma run_inv called es w w' :
  inv called w → run w es = Some w' →
  inv (called || existsb callsWaitUntil es) w'.
Proof.
  revert called w. induction es as [|e es IH]; intros called w Hinv Hrun; simpl in *.
  - simplify_eq. by rewrite orb_false_r.
  - destruct (step w e) as [w1|] eqn:Hstep; simpl in Hrun; [|done].
    rewrite orb_assoc. eapply IH; [|done]. by eapply step_inv.
Qed.

(** The wrapper as its constructor leaves it. *)
Lemma newTraceWrapper_inv now nowSpan nowCatch request l config :
  ∃ w, newTraceWrapper now nowSpan nowCatch request l config = (inr tt, w) ∧
       inv (existsb isWaitUntil (calls l)) w ∧
       Coordinator.allSettled (Coordinator.settler (jobs w)) = false.
Proof.
  unfold newTraceWrapper, setUpRespondWith, try_catch, listen, bind.
  match goal with |- context [performAll _ ?w0] => set (w := w0) end.
  assert (inv false w) as Hinv.
  { split; simpl; try done.
    - exists (startChildSpan nowSpan (VStr "waitUntil") (VStr "worker")
                (span (newRequestTracer now request config))).2.
      split; [|done]. unfold newRequestTracer. simpl. by destruct request.
    - by intros batch ?%elem_of_nil. }
  destruct (performAll_inv false (calls l) w Hinv eq_refl) as (w1 & Hall & Hinv1 & Hopen).
  rewrite Hall. simpl in Hinv1. destruct (thrown l) as [v|]; simpl.
  - unfold modify. eexists. split; [done|]. split; [|done].
    apply inv_on_tracer; [apply finishResponse_keepsFirst | done].
  - unfold ret. eauto.
Qed.

(** C6.  In every run of a wrapped listener, every array handed to
    [sendBatch] has no event named [waitUntil] if the proxied
    [waitUntil] was never called, and has one if it was. *)
Theorem unused_waitUntil_excluded now nowSpan nowCatch request l config es w :
  run (newTraceWrapper now nowSpan nowCatch request l config).2 es = Some w →
  ∀ batch, batch ∈ batches w →
    if waitUntilCalled l es
    then ∃ event, event ∈ batch ∧ event !! "name" = Some (VStr "waitUntil")
    else ∀ event, event ∈ batch → event !! "name" ≠ Some (VStr "waitUntil").
Proof.
  destruct (newTraceWrapper_inv now nowSpan nowCatch request l config)
    as (w0 & -> & Hinv & _).
  simpl. intros Hrun. apply (run_inv _ _ _ _ Hinv) in Hrun as [_ _ _ Hb].
  exact Hb.
Qed.

(** With no reaction of the coordinator waiting, nothing is sent and the
    promise given to the host's [waitUntil] stays pending, whatever
    settles, unless user code calls in again. *)
Lemma idle_stays_silent es w w' :
  Coordinator.reactions (jobs w) = [] →
  existsb isCall es = false →
  run w es = Some w' →
  Coordinator.reactions (jobs w') = [] ∧
  batches w' = batches w ∧ waitUntilResolved w' = waitUntilResolved w.
Proof.
  revert w. induction es as [|e es IH]; intros w Hidle Hcalls Hrun; simpl in *.
  - by simplify_eq.
  - apply orb_false_elim in Hcalls as [He Hes].
    destruct (step w e) as [w1|] eqn:Hstep; simpl in Hrun; [|done].
    assert (Coordinator.reactions (jobs w1) = [] ∧ batches w1 = batches w ∧
            waitUntilResolved w1 = waitUntilResolved w) as (Hidle1 & Hb1 & Hr1).
    { destruct e as [c|n o|i|n now body|k now random]; simpl in Hstep; [done| | | |].
      - unfold settle, Coordinator.step in Hstep.
        destruct (Coordinator.settled (jobs w) !! UserPromise n); simpl in Hstep;
          by simplify_eq.
      - destruct (afterWaitUntil w !! i) as [p|]; simpl in Hstep; [|done].
        destruct (Coordinator.settled (jobs w) !! p) as [o|]; simpl in Hstep; [|done].
        simplify_eq. unfold finishWaitUntil.
        destruct (truthy _); [|done]. by destruct (truthy _).
      - destruct (respondWithCalls w !! n) as [p|]; simpl in Hstep; [|done].
        destruct (Coordinator.settled (jobs w) !! p) as [o|]; simpl in Hstep; [|done].
        destruct (respondOutcome o) as [response reason].
        unfold settle, Coordinator.step in Hstep. simpl in Hstep.
        destruct (Coordinator.settled (jobs w) !! ResponseTask n); simpl in Hstep;
          by simplify_eq.
      - unfold Coordinator.step, Coordinator.take_join in Hstep.
        rewrite Hidle in Hstep. done. }
    destruct (IH w1 Hidle1 Hes Hrun) as (? & ? & ?). split; [done|]. split; congruence.
Qed.
End WrapperFacts.

Section WrapperExamples.
Import Tracer Wrapper.

Lemma lastBatch_elem_of w : length (batches w) ≠ 0 → lastBatch w ∈ batches w.
Proof. unfold lastBatch. destruct (batches w); [done|]. intros _. by left. Qed.

Lemma unused_waitUntil_excluded_witness :
  (run (newTraceWrapper 0 1 2 (Some Samples.request) Samples.responds
          (resolve noOptions)).2 Samples.respondsRun = Some Samples.respondsEnd ∧
   length (lastBatch Samples.respondsEnd) = 1 ∧
   ∀ event, event ∈ lastBatch Samples.respondsEnd →
            event !! "name" ≠ Some (VStr "waitUntil")) ∧
  (run (newTraceWrapper 0 1 2 (Some Samples.request) Samples.waitsAndResponds
          (resolve noOptions)).2 Samples.waitsAndRespondsRun
     = Some Samples.waitsAndRespondsEnd ∧
   length (lastBatch Samples.waitsAndRespondsEnd) = 2 ∧
   ∃ event, event ∈ lastBatch Samples.waitsAndRespondsEnd ∧
            event !! "name" = Some (VStr "waitUntil")).
Proof.
  split.
  - assert (run (newTraceWrapper 0 1 2 (Some Samples.request) Samples.responds
                   (resolve noOptions)).2 Samples.respondsRun
            = Some Samples.respondsEnd) as Hrun by (vm_compute; reflexivity).
    split; [exact Hrun|]. split; [vm_compute; reflexivity|].
    refine (unused_waitUntil_excluded 0 1 2 (Some Samples.request) Samples.responds
              (resolve noOptions) Samples.respondsRun Samples.respondsEnd Hrun
              (lastBatch Samples.respondsEnd) (lastBatch_elem_of _ _)).
    vm_compute. discriminate.
  - assert (run (newTraceWrapper 0 1 2 (Some Samples.request) Samples.waitsAndResponds
                   (resolve noOptions)).2 Samples.waitsAndRespondsRun
            = Some Samples.waitsAndRespondsEnd) as Hrun by (vm_compute; reflexivity).
    split; [exact Hrun|]. split; [vm_compute; reflexivity|].
    refine (unused_waitUntil_excluded 0 1 2 (Some Samples.request)
              Samples.waitsAndResponds (resolve noOptions)
              Samples.waitsAndRespondsRun Samples.waitsAndRespondsEnd Hrun
              (lastBatch Samples.waitsAndRespondsEnd) (lastBatch_elem_of _ _)).
    vm_compute. discriminate.
Defined.

(** C7 at [(event) => { throw Error("boom") }]: the error is caught and written
    into the root span, and the runner trace built from that span would
    carry it; but no promise has reached the coordinator, so its callback
    never runs and nothing is sent. *)
Theorem thrown_error_is_never_sent :
  (epsagon noOptions Samples.throwsBoom 0 1 2 (Some Samples.request)).1 = inr tt ∧
  spanData (span (tracer (this Samples.afterBoom))) !! "exception" = Some (VBool true) ∧
  spanData (span (tracer (this Samples.afterBoom))) !! "error_name" = Some (VStr "Error") ∧
  spanData (span (tracer (this Samples.afterBoom))) !! "message" = Some (VStr "boom") ∧
  spanData (span (tracer (this Samples.afterBoom))) !! "response" = None ∧
  duration_ms (eventMeta (span (tracer (this Samples.afterBoom)))) = Some 2%Z ∧
  (∃ exception,
      runnerTraceException (parseToEvents (span (tracer (this Samples.afterBoom)))) tt
        = (inr (exception, 2%Z), tt) ∧
      exception !! "message" = Some (VStr "boom")) ∧
  Coordinator.promises (Coordinator.settler (jobs Samples.afterBoom)) = [] ∧
  Coordinator.reactions (jobs Samples.afterBoom) = [] ∧
  ∀ es w, existsb isCall es = false → run Samples.afterBoom es = Some w →
          batches w = [] ∧ waitUntilResolved w = false.
Proof.
  split; [vm_compute; reflexivity|].
  split; [vm_compute; reflexivity|].
  split; [vm_compute; reflexivity|].
  split; [vm_compute; reflexivity|].
  split; [vm_compute; reflexivity|].
  split; [vm_compute; reflexivity|].
  split.
  { eexists. split; [vm_compute; reflexivity|]. vm_compute; reflexivity. }
  split; [vm_compute; reflexivity|].
  assert (Coordinator.reactions (jobs Samples.afterBoom) = []) as Hidle
    by (vm_compute; reflexivity).
  split; [exact Hidle|].
  intros es w Hes Hrun.
  destruct (idle_stays_silent es Samples.afterBoom w Hidle Hes Hrun) as (_ & Hb & Hr).
  rewrite Hb, Hr. split; vm_compute; reflexivity.
Qed.

Lemma thrown_error_is_never_sent_witness :
  run Samples.afterBoom [Settle 7 (Coordinator.Fulfilled (PValue VNull))]
    = Some (runFrom Samples.afterBoom [Settle 7 (Coordinator.Fulfilled (PValue VNull))]) ∧
  batches (runFrom Samples.afterBoom [Settle 7 (Coordinator.Fulfilled (PValue VNull))]) = [] ∧
  waitUntilResolved
    (runFrom Samples.afterBoom [Settle 7 (Coordinator.Fulfilled (PValue VNull))]) = false.
Proof.
  assert (run Samples.afterBoom [Settle 7 (Coordinator.Fulfilled (PValue VNull))]
          = Some (runFrom Samples.afterBoom
                    [Settle 7 (Coordinator.Fulfilled (PValue VNull))])) as Hrun
    by (vm_compute; reflexivity).
  split; [exact Hrun|].
  destruct thrown_error_is_never_sent as (_ & _ & _ & _ & _ & _ & _ & _ & _ & Hnever).
  exact (Hnever [Settle 7 (Coordinator.Fulfilled (PValue VNull))] _ eq_refl Hrun).
Defined.
End WrapperExamples.

(** * Further properties *)

(** ** The coordinator *)

Section CoordinatorMore.
Import Coordinator.
Context {P : Type} `{CountP : Countable P} {V : Type}.
Implicit Types (w : world P V) (e : event P V) (es : list (event P V)).

Lemma take_join_Some k (js : list (join P)) j :
  j ∈ js → currentLength j = k →
  ∃ j' rest, take_join k js = Some (j', rest) ∧ j' ∈ js ∧ currentLength j' = k.
Proof.
  intros Hj Hk. unfold take_join.
  destruct (filter (λ j, currentLength j = k) js) as [|j' l] eqn:Hf.
  - assert (j ∈ filter (λ j, currentLength j = k) js) as Hin
      by by apply list_elem_of_filter.
    rewrite Hf in Hin. by apply elem_of_nil in Hin.
  - assert (j' ∈ filter (λ j, currentLength j = k) js) as Hin by (rewrite Hf; left).
    apply list_elem_of_filter in Hin as [? ?]. eauto.
Qed.

(** X1.  When [finished] has been called, its argument lists the
    outcome of every promise that was registered, in the order of
    registration. *)
Theorem finished_results es w results :
  run constructor es = Some w →
  results ∈ finishedCalls w →
  Forall2 (λ p o, settled w !! p = Some o) (promises (settler w)) results.
Proof.
  intros Hrun Hin.
  destruct (inv_run _ _ _ inv_constructor Hrun) as [_ _ Ho Hd].
  destruct (allSettled (settler w)).
  - destruct (Hd eq_refl) as (_ & results' & Hcalls & Hres).
    rewrite Hcalls in Hin. apply list_elem_of_singleton in Hin as ->.
    by apply mapM_Some_1.
  - destruct (Ho eq_refl) as [Hcalls _]. rewrite Hcalls in Hin.
    by apply elem_of_nil in Hin.
Qed.

(** X2.  The coordinator cannot get stuck short of completion: when at
    least one promise is registered, all registered promises have
    settled and [finished] has not been called yet, the reaction of the
    latest registration is waiting, can run, and calls [finished]. *)
Theorem completion_enabled es w :
  run constructor es = Some w →
  promises (settler w) ≠ [] →
  (∀ p, p ∈ promises (settler w) → ¬ pending w p) →
  allSettled (settler w) = false →
  ∃ w', step w (RunJoin (length (promises (settler w)))) = Some w' ∧
        allSettled (settler w') = true ∧
        length (finishedCalls w') = 1.
Proof.
  intros Hrun Hne Hall Hopen.
  destruct (inv_run _ _ _ inv_constructor Hrun) as [_ Hj Ho _].
  destruct (Ho Hopen) as [Hcalls [?|Hlast]]; [done|].
  apply list_elem_of_fmap in Hlast as (j & Hlen & Hin).
  destruct (take_join_Some (length (promises (settler w))) _ j Hin) as
    (j' & rest & Htake & Hin' & Hlen'); [done|].
  destruct (Hj j' Hin') as [_ Haw]. rewrite Hlen', firstn_all in Haw.
  assert (is_Some (allSettledResults (settled w) (awaited j'))) as [results Hres].
  { rewrite Haw. apply mapM_is_Some, Forall_forall. intros p Hp. simpl.
    destruct (settled w !! p) eqn:Hs; [by eexists|]. by destruct (Hall p Hp). }
  simpl. rewrite Htake. simpl. rewrite Hres. simpl. eexists. split; [done|].
  unfold react. simpl. rewrite Hlen', Nat.eqb_refl. simpl. by rewrite Hcalls.
Qed.

(** X3.  A reaction that a later registration has overtaken does
    nothing: it does not call [finished] and leaves the coordinator as
    it was. *)
Theorem overtaken_reaction_is_idle w k w' :
  step w (RunJoin k) = Some w' →
  k ≠ length (promises (settler w)) →
  settler w' = settler w ∧ finishedCalls w' = finishedCalls w ∧
  settled w' = settled w.
Proof.
  intros Hstep Hk. simpl in Hstep. unfold take_join in Hstep.
  destruct (filter (λ j, currentLength j = k) (reactions w)) as [|j l] eqn:Hf;
    simpl in Hstep; [done|].
  assert (j ∈ filter (λ j, currentLength j = k) (reactions w)) as Hin
    by (rewrite Hf; left).
  apply list_elem_of_filter in Hin as [Hj _].
  destruct (allSettledResults (settled w) (awaited j)); simpl in Hstep; [|done].
  simplify_eq. unfold react. simpl.
  by destruct (Nat.eqb_spec (currentLength j) (length (promises (settler w)))).
Qed.
End CoordinatorMore.

Section CoordinatorMoreWitnesses.
Import Coordinator.

Lemma finished_results_witness :
  ∃ w : world nat unit,
    run constructor [Add 4; Add 9; Settle 9 (Rejected tt); Settle 4 (Fulfilled tt);
                     RunJoin 2; RunJoin 1] = Some w ∧
    finishedCalls w = [[Fulfilled tt; Rejected tt]] ∧
    Forall2 (λ p o, settled w !! p = Some o) (promises (settler w))
            [Fulfilled tt; Rejected tt].
Proof.
  eexists. split; [vm_compute; reflexivity|]. split; [reflexivity|].
  refine (finished_results
            [Add 4; Add 9; Settle 9 (Rejected tt); Settle 4 (Fulfilled tt);
             RunJoin 2; RunJoin 1] _ _ _ _); [vm_compute; reflexivity | left].
Defined.

Lemma completion_enabled_witness :
  ∃ w w' : world nat unit,
    run constructor [Add 4; Add 9; Settle 9 (Rejected tt); Settle 4 (Fulfilled tt);
                     RunJoin 1] = Some w ∧
    step w (RunJoin 2) = Some w' ∧ length (finishedCalls w') = 1.
Proof.
  eexists.
  edestruct (completion_enabled (P := nat) (V := unit)
               [Add 4; Add 9; Settle 9 (Rejected tt); Settle 4 (Fulfilled tt);
                RunJoin 1]) as (w' & Hstep & _ & Hlen).
  - vm_compute; reflexivity.
  - discriminate.
  - intros p Hp. unfold pending. simpl in Hp.
    apply elem_of_cons in Hp as [->|Hp]; [by vm_compute|].
    apply elem_of_cons in Hp as [->|Hp]; [by vm_compute|].
    by apply elem_of_nil in Hp.
  - reflexivity.
  - exists w'. split; [vm_compute; reflexivity|]. split; [exact Hstep | exact Hlen].
Defined.

Lemma overtaken_reaction_is_idle_witness :
  ∃ w w' : world nat unit,
    run constructor [Add 4; Add 9; Settle 4 (Fulfilled tt)] = Some w ∧
    step w (RunJoin 1) = Some w' ∧
    allSettled (settler w') = false ∧ finishedCalls w' = [].
Proof.
  eexists _, _. split; [vm_compute; reflexivity|].
  match goal with
  | |- step ?W _ = _ ∧ _ => pose proof (overtaken_reaction_is_idle W 1) as Hidle
  end.
  split; [vm_compute; reflexivity|].
  match goal with
  | |- allSettled (settler ?W') = _ ∧ _ => specialize (Hidle W')
  end.
  destruct Hidle as (Hs & Hc & _); [vm_compute; reflexivity | vm_compute; discriminate |].
  split; [apply (f_equal allSettled) in Hs; exact Hs | exact Hc].
Defined.
End CoordinatorMoreWitnesses.

(** ** The wrapper *)

Section WrapperMore.
Import Tracer Wrapper.

Local Arguments Coordinator.step : simpl never.












End WrapperMore.

Section WrapperMoreWitnesses.
Import Tracer Wrapper.

End WrapperMoreWitnesses.

(** ** Spans *)

Section SpanMore.
Import Tracer.

(** X5.  A span made by [startChildSpan] adds one event, its own, at the
    end of what the parent flattens to; the events that were there stay
    as they are and where they are. *)
Theorem startChildSpan_appends_event now (name' serviceName : value) (s : Span) :
  parseToEvents (startChildSpan now name' serviceName s).1 =
  parseToEvents s ++ [toEvent (startChildSpan now name' serviceName s).2].
Proof.
  destruct s as [c d cs m]. simpl.
  rewrite map_app, concat_app. simpl. by rewrite ?app_nil_r.
Qed.


(** X7.  [finish] measures from the latest [start]: whatever the span
    went through before, after [start] at [a] and [finish] at [b] its
    [duration_ms] is [b - a]; [start] alone leaves a duration already
    there as it is, and a later [finish] replaces an earlier one. *)
Theorem finish_measures_from_latest_start (a b c : Z) (s : Span) :
  duration_ms (eventMeta (finish b (start a s))) = Some (b - a)%Z ∧
  toEvent (finish b (start a s)) !! "duration_ms" = Some (VNum (inject_Z (b - a))) ∧
  duration_ms (eventMeta (start a s)) = duration_ms (eventMeta s) ∧
  finish c (finish b s) = finish c s.
Proof.
  destruct s as [cfg d cs m]. split; [done|]. split; [|done].
  unfold toEvent. apply lookup_union_Some_l. simpl. unfold metaObject. simpl.
  by simplify_map_eq.
Qed.

(** The events of [s] are the events of the spans under it. *)
Lemma elem_of_parseToEvents (s : Span) (event : object) :
  event ∈ parseToEvents s ↔ ∃ r c, deref r s = Some c ∧ event = toEvent c.
Proof.
  revert event. induction s as [cfg d cs m IH] using Span_induction. intros event.
  simpl. rewrite elem_of_cons. split.
  - intros [->|Hin].
    + by exists [], (mkSpan cfg d cs m).
    + apply list_elem_of_In, in_concat in Hin as (l & Hl & Hin).
      apply in_map_iff in Hl as (c & <- & Hc).
      apply list_elem_of_In, list_elem_of_lookup in Hc as [i Hi].
      rewrite Forall_forall in IH.
      apply list_elem_of_In, (IH c) in Hin as (r & c' & Hr & ->);
        [|by eapply list_elem_of_lookup_2].
      exists (i :: r), c'. simpl. by rewrite Hi.
  - intros ([|i r] & c & Hr & ->); simpl in Hr.
    + left. by simplify_eq.
    + right. destruct (cs !! i) as [ci|] eqn:Hi; simpl in Hr; [|done].
      apply list_elem_of_In, in_concat. exists (parseToEvents ci). split.
      * apply in_map, list_elem_of_In. by eapply list_elem_of_lookup_2.
      * apply list_elem_of_In. rewrite Forall_forall in IH.
        apply (IH ci); [by eapply list_elem_of_lookup_2 | eauto].
Qed.
End SpanMore.

Section SpanMoreWitnesses.
Import Tracer.

End SpanMoreWitnesses.

(** ** Headers and the tracer *)

Section TracerMore.
Import Tracer.



(** X10.  Once a response whose status is an integer has been captured,
    a tracer with a table of rates and no override samples at the
    table's entry for the first digit of the status followed by [xx];
    when that entry is missing, or is there but falsy ([0] included),
    the rate is 1. *)
Theorem response_rate_from_table now (response : Response) (error body : value)
    (status : Z) (t : RequestTracer) table :
  sampleRate t = None →
  sampleRates (config (span t)) = RateTable table →
  response_status response = VNum (inject_Z status) →
  let t' := on_span (finishResponse now (Some response) error body) t in
  getSampleRate (spanData (span t')) t' =
    (inr (let entry := table !! (firstChar (pretty status) +:+ "xx") in
          if rate_truthy entry then entry else Some (Finite 1)), t').
Proof.
  intros Hrate Htable Hstatus t'. subst t'.
  destruct t as [[c d cs m] r]. simpl in Hrate, Htable.
  eapply getSampleRate_table_status.
  - done.
  - done.
  - simpl. apply lookup_union_Some_l. apply lookup_singleton_eq.
  - rewrite <- Hstatus. by simplify_map_eq.
Qed.

(** X11.  When [sendEvents] calls [sendBatch], the array holds the event
    of every span under the tracer whose own name is not excluded, and
    nothing else: a span under an excluded span is kept, and with no
    names to exclude every span is. *)
Theorem sendEvents_filters_by_own_name random excludeSpans (t : RequestTracer) events :
  (sendEvents random excludeSpans t).1 = inr (Some events) →
  (∀ event, event ∈ events ↔
            ∃ r c, deref r (span t) = Some c ∧ event = toEvent c ∧
                   keepEvent excludeSpans event = true) ∧
  (excludeSpans = None ∨ excludeSpans = Some [] → events = parseToEvents (span t)).
Proof.
  intros Hsend.
  destruct (sendEvents random excludeSpans t) as [res t'] eqn:Hres. simpl in Hsend.
  subst res. apply sendEvents_events in Hres. subst events. split.
  - intros event. rewrite list_elem_of_filter, elem_of_parseToEvents. split.
    + intros [Hkeep (r & c & Hr & ->)]. eauto.
    + intros (r & c & Hr & -> & Hkeep). eauto.
  - intros Hnone.
    assert (∀ event, keepEvent excludeSpans event = true) as Hall.
    { intros event. destruct Hnone as [->| ->]; [done|].
      unfold keepEvent, includes. by destruct (getOwn _ _). }
    induction (parseToEvents (span t)) as [|event l IH]; [done|].
    rewrite filter_cons_True by apply Hall. by rewrite IH.
Qed.
End TracerMore.

Section TracerMoreWitnesses.
Import Tracer.



Lemma response_rate_from_table_witness :
  getSampleRate
    (spanData (span (on_span (finishResponse 9 (Some Samples.response) VNull
                                (VStr "hello")) Samples.tableTracer)))
    (on_span (finishResponse 9 (Some Samples.response) VNull (VStr "hello"))
       Samples.tableTracer)
  = (inr (Some (Finite 1)),
     on_span (finishResponse 9 (Some Samples.response) VNull (VStr "hello"))
       Samples.tableTracer).
Proof.
  exact (response_rate_from_table 9 Samples.response VNull (VStr "hello") 200
           Samples.tableTracer Samples.rates eq_refl eq_refl eq_refl).
Defined.

Lemma sendEvents_filters_by_own_name_witness :
  (sendEvents (1 # 2) (Some ["A"]) Samples.treeTracer).1 = inr (Some Samples.keptEvents) ∧
  (λ event : object, event !! "name") <$> Samples.keptEvents =
    [Some (VStr "root"); Some (VStr "A1"); Some (VStr "B")] ∧
  toEvent Samples.a1 ∈ Samples.keptEvents.
Proof.
  assert ((sendEvents (1 # 2) (Some ["A"]) Samples.treeTracer).1
          = inr (Some Samples.keptEvents)) as Hsend by (vm_compute; reflexivity).
  split; [exact Hsend|]. split; [vm_compute; reflexivity|].
  apply (proj1 (sendEvents_filters_by_own_name _ _ _ _ Hsend)).
  exists [0; 0], Samples.a1. split; [vm_compute; reflexivity|].
  split; [reflexivity | vm_compute; reflexivity].
Defined.
End TracerMoreWitnesses.

(** ** The wrapper, continued *)

Section WrapperCatch.
Import Tracer Wrapper.

Local Arguments Coordinator.step : simpl never.


(** X13.  With a table of rates, no override and no captured response,
    the coordinator's callback sends nothing and does not resolve the
    promise given to the host's [waitUntil]: [getSampleRate] throws
    inside [sendEvents]. *)
Theorem send_fails_without_response now random w table :
  sampleRate (tracer (this w)) = None →
  sampleRates (config (span (tracer (this w)))) = RateTable table →
  spanData (span (tracer (this w))) !! "response" = None →
  batches (finished now random w) = batches w ∧
  waitUntilResolved (finished now random w) = waitUntilResolved w.
Proof.
  intros Hrate Htable Hdata. unfold finished, sendEvents, Tracer.sendEvents, bind, gets.
  rewrite getSampleRate_table_no_response with (table := table); [done|..].
  - done.
  - destruct w as [[u [[c d cs m] r]] j rc aw wr b]. done.
  - destruct w as [[u [[c d cs m] r]] j rc aw wr b]. done.
Qed.

Lemma finishResponse_keepsName now response error body :
  keepsName (finishResponse now response error body).
Proof.
  intros s. unfold finishResponse. destruct response; simpl; [done|].
  by destruct (truthy error).
Qed.

Lemma rooted_on_tracer f w : keepsName f → rooted w → rooted (on_tracer f w).
Proof. intros Hf [Hn Hb]. split; simpl; [by rewrite Hf | done]. Qed.

Lemma perform_rooted c w w' : rooted w → perform c w = (inr tt, w') → rooted w'.
Proof.
  intros Hroot Hperf. destruct c as [now n|n|r m|rate]; simpl in Hperf.
  - unfold bind, modify, in_jobs, gets in Hperf. simpl in Hperf.
    destruct (Coordinator.allSettled (Coordinator.settler (jobs w))) eqn:Hdone.
    { by rewrite addPromise_closed in Hperf. }
    rewrite addPromise_open in Hperf by done. simplify_eq.
    destruct Hroot as [Hn Hb]. by split.
  - unfold bind, modify, in_jobs, gets in Hperf. simpl in Hperf.
    destruct (Coordinator.allSettled (Coordinator.settler (jobs w))) eqn:Hdone.
    { by rewrite addPromise_closed in Hperf. }
    rewrite addPromise_open in Hperf by done. simplify_eq.
    destruct Hroot as [Hn Hb]. by split.
  - unfold modify in Hperf. simplify_eq. apply rooted_on_tracer; [|done].
    apply at_ref_keepsName, invoke_keepsName.
  - unfold modify in Hperf. simplify_eq. destruct Hroot. by split.
Qed.

Lemma performAll_rooted cs w w' :
  rooted w → performAll cs w = (inr tt, w') → rooted w'.
Proof.
  revert w. induction cs as [|c cs IH]; intros w Hroot Hall; simpl in Hall.
  - unfold ret in Hall. by simplify_eq.
  - unfold bind in Hall. destruct (perform c w) as [[err|[]] w1] eqn:Hperf; [done|].
    eapply IH; [|done]. by eapply perform_rooted.
Qed.

Lemma settle_rooted p o w w' : rooted w → settle p o w = Some w' → rooted w'.
Proof.
  intros [Hn Hb] Hsettle. unfold settle in Hsettle.
  destruct (Coordinator.step (jobs w) (Coordinator.Settle p o)) as [j|];
    simpl in Hsettle; [|done].
  simplify_eq. by split.
Qed.

Lemma sendEvents_rooted random w : rooted w → rooted (sendEvents random w).
Proof.
  intros [Hn Hb]. unfold sendEvents.
  destruct (Tracer.sendEvents _ _ _) as [[e|[events|]] t'] eqn:Hsend;
    [done| |by split].
  apply sendEvents_events in Hsend. split; simpl; [done|].
  intros batch [->|Hin]%elem_of_cons; [|by apply Hb].
  exists (toEvent (span (tracer (this w)))). split; [|by rewrite toEvent_name, Hn].
  subst events. destruct (span (tracer (this w))) as [c d cs m] eqn:Hs. simpl.
  rewrite filter_cons_True; [done|].
  unfold keepEvent, includes, getOwn. rewrite toEvent_name. simpl in *. rewrite Hn.
  simpl. destruct (waitUntilUsed (this w)); by vm_compute.
Qed.

Lemma step_rooted e w w' : rooted w → step w e = Some w' → rooted w'.
Proof.
  intros Hroot Hstep. destruct e as [c|n o|i|n now body|k now random]; simpl in Hstep.
  - destruct (perform c w) as [[err|[]] w1] eqn:Hperf; [done|]. simplify_eq.
    by eapply perform_rooted.
  - by eapply settle_rooted.
  - destruct (afterWaitUntil w !! i) as [p|]; simpl in Hstep; [|done].
    destruct (Coordinator.settled (jobs w) !! p) as [o|]; simpl in Hstep; [|done].
    simplify_eq. unfold finishWaitUntil.
    assert (rooted {| this := this w; jobs := jobs w;
                      respondWithCalls := respondWithCalls w;
                      afterWaitUntil := delete i (afterWaitUntil w);
                      waitUntilResolved := waitUntilResolved w;
                      batches := batches w |}) as Hroot'
      by (destruct Hroot; by split).
    destruct (truthy _); [|done].
    destruct (truthy _); by repeat apply rooted_on_tracer.
  - destruct (respondWithCalls w !! n) as [p|]; simpl in Hstep; [|done].
    destruct (Coordinator.settled (jobs w) !! p) as [o|]; simpl in Hstep; [|done].
    destruct (respondOutcome o) as [response reason].
    eapply settle_rooted; [|done].
    apply rooted_on_tracer; [apply finishResponse_keepsName | done].
  - destruct (Coordinator.step (jobs w) (Coordinator.RunJoin k)) as [j|];
      simpl in Hstep; [|done].
    simplify_eq.
    assert (rooted (set_jobs j w)) as Hroot' by (destruct Hroot; by split).
    destruct (negb _); [|done].
    unfold finished. apply sendEvents_rooted. by apply rooted_on_tracer.
Qed.

Lemma run_rooted es w w' : rooted w → run w es = Some w' → rooted w'.
Proof.
  revert w. induction es as [|e es IH]; intros w Hroot Hrun; simpl in Hrun.
  - by simplify_eq.
  - destruct (step w e) as [w1|] eqn:Hstep; simpl in Hrun; [|done].
    eauto using step_rooted.
Qed.

(** X14.  Every array handed to [sendBatch] starts with the event of the
    root span, named [request]: no method open to user code renames the
    tracer, and its event is never excluded. *)
Theorem batch_starts_with_request now nowSpan nowCatch request l config es w :
  run (newTraceWrapper now nowSpan nowCatch request l config).2 es = Some w →
  ∀ batch, batch ∈ batches w →
           ∃ event, head batch = Some event ∧ event !! "name" = Some (VStr "request").
Proof.
  intros Hrun.
  destruct (newTraceWrapper_inv now nowSpan nowCatch request l config)
    as (w0 & Hnew & _ & _).
  cut (rooted w0).
  { intros Hroot. rewrite Hnew in Hrun. simpl in Hrun.
    by destruct (run_rooted _ _ _ Hroot Hrun). }
  revert Hnew. unfold newTraceWrapper, setUpRespondWith, try_catch, listen, bind.
  match goal with |- context [performAll _ ?w0] => set (w1 := w0) end.
  assert (rooted w1) as Hroot1.
  { split; simpl; [|by intros batch ?%elem_of_nil].
    unfold newRequestTracer. simpl. by destruct request. }
  assert (inv false w1) as Hinv.
  { split; simpl; try done.
    - exists (startChildSpan nowSpan (VStr "waitUntil") (VStr "worker")
                (span (newRequestTracer now request config))).2.
      split; [|done]. unfold newRequestTracer. simpl. by destruct request.
    - by intros batch ?%elem_of_nil. }
  destruct (performAll_inv false (calls l) w1 Hinv eq_refl) as (w2 & Hall & _ & _).
  rewrite Hall. pose proof (performAll_rooted _ _ _ Hroot1 Hall) as Hroot2.
  destruct (thrown l) as [v|]; simpl.
  - unfold modify. intros [= <-].
    apply rooted_on_tracer; [apply finishResponse_keepsName | done].
  - unfold ret. by intros [= <-].
Qed.
End WrapperCatch.

Section WrapperCatchWitnesses.
Import Tracer Wrapper.


Lemma send_fails_without_response_witness :
  batches (finished 5 (1 # 2) Samples.afterBoomWithTable) = [] ∧
  waitUntilResolved (finished 5 (1 # 2) Samples.afterBoomWithTable) = false.
Proof.
  destruct (send_fails_without_response 5 (1 # 2) Samples.afterBoomWithTable
              Samples.rates) as [Hb Hr];
    [vm_compute; reflexivity | vm_compute; reflexivity | vm_compute; reflexivity |].
  rewrite Hb, Hr. split; vm_compute; reflexivity.
Defined.

Lemma batch_starts_with_request_witness :
  run (newTraceWrapper 0 1 2 (Some Samples.request) Samples.waitsAndResponds
         (resolve noOptions)).2 Samples.waitsAndRespondsRun
    = Some Samples.waitsAndRespondsEnd ∧
  ∃ event, head (lastBatch Samples.waitsAndRespondsEnd) = Some event ∧
           event !! "name" = Some (VStr "request").
Proof.
  assert (run (newTraceWrapper 0 1 2 (Some Samples.request) Samples.waitsAndResponds
                 (resolve noOptions)).2 Samples.waitsAndRespondsRun
          = Some Samples.waitsAndRespondsEnd) as Hrun by (vm_compute; reflexivity).
  split; [exact Hrun|].
  refine (batch_starts_with_request _ _ _ _ _ _ _ _ Hrun _ (lastBatch_elem_of _ _)).
  vm_compute. discriminate.
Defined.
End WrapperCatchWitnesses.

(** ** sendBatch *)

Section BatchFacts.
Import Tracer Batch.
Context {S : Type} (validURL : value → bool).

Lemma get_nullish (v : value) k (s : S) :
  nullish v = true → ∃ e, get v k s = (inl e, s).
Proof. intros Hv. unfold get. rewrite Hv. unfold throw. eauto. Qed.

Lemma get_ok (v : value) k (s : S) :
  nullish v = false → get v k s = (inr (getOwn v k), s).
Proof. intros Hv. unfold get. by rewrite Hv. Qed.

(** Go past the reads that cannot throw. *)
Ltac reads := repeat (rewrite get_ok by done; cbv beta iota delta [ret]).

Lemma runnerTraceException_ok (first : object) rest (s : S) :
  ∃ r, runnerTraceException (first :: rest) s = (inr r, s).
Proof.
  unfold runnerTraceException, bind. cbn [head from_option]. reads.
  destruct (truthy _); [|(eexists; reflexivity)]. reads. (eexists; reflexivity).
Qed.

Lemma firstIsComplete_reads (first : object) :
  firstIsComplete validURL first ↔
  nullish (getOwn (VObj first) "request") = false ∧
  nullish (getOwn (getOwn (VObj first) "request") "headers") = false ∧
  (∃ host, getOwn (getOwn (getOwn (VObj first) "request") "headers") "host"
           = VStr host) ∧
  validURL (getOwn (getOwn (VObj first) "request") "url") = true.
Proof.
  unfold firstIsComplete. simpl. split.
  - intros (request & headers & host & Hreq & Hnr & <- & Hnh & Hhost & Hurl).
    rewrite Hreq. simpl. eauto.
  - intros (Hnr & Hnh & [host Hhost] & Hurl).
    destruct (first !! "request") as [request|]; simpl in *; [|done].
    exists request, (getOwn request "headers"), host. done.
Qed.

Lemma readFirst_spec (events : list object) (s : S) :
  ∃ res, readFirst validURL events s = (res, s) ∧
         (res = inr tt ↔
          ∃ first rest, events = first :: rest ∧ firstIsComplete validURL first).
Proof.
  destruct events as [|first rest].
  { eexists. split; [reflexivity|]. split; [done|]. by intros (? & ? & ? & _). }
  enough (∃ res, readFirst validURL (first :: rest) s = (res, s) ∧
                 (res = inr tt ↔
                  nullish (getOwn (VObj first) "request") = false ∧
                  nullish (getOwn (getOwn (VObj first) "request") "headers") = false ∧
                  (∃ host, getOwn (getOwn (getOwn (VObj first) "request") "headers") "host"
                           = VStr host) ∧
                  validURL (getOwn (getOwn (VObj first) "request") "url") = true))
    as (res & Hres & Hiff).
  { exists res. split; [done|]. rewrite Hiff, <- firstIsComplete_reads.
    split; [eauto | by intros (f & r & [= <- <-] & ?)]. }
  unfold readFirst, bind. cbn [head from_option]. reads.
  destruct (nullish (getOwn (VObj first) "request")) eqn:Hnr.
  { destruct (get_nullish _ "headers" s Hnr) as [e ->].
    eexists. split; [reflexivity|]. split; [done|]. by intros [? _]. }
  reads.
  destruct (nullish (getOwn (getOwn (VObj first) "request") "headers")) eqn:Hnh.
  { destruct (get_nullish _ "host" s Hnh) as [e ->].
    eexists. split; [reflexivity|]. split; [done|]. by intros (_ & ? & _). }
  reads.
  destruct (validURL (getOwn (getOwn (VObj first) "request") "url")) eqn:Hurl; cycle 1.
  { eexists. split; [reflexivity|]. split; [done|]. by intros (_ & _ & _ & ?). }
  cbv beta iota delta [ret]. reads. unfold replaceSplit.
  destruct (getOwn (getOwn (getOwn (VObj first) "request") "headers") "host")
    as [| |b|n|host|en em es|props] eqn:Hhost;
    cbn [nullish]; cbv beta iota delta [ret throw];
    try (eexists; split; [reflexivity|]; split; [done|];
         by intros (_ & _ & [h Hh] & _)).
  reads. destruct (runnerTraceException_ok first rest s) as [r ->].
  eexists. split; [reflexivity|]. split; [|done]. intros _.
  split; [done|]. split; [done|]. split; [by exists host | done].
Qed.

Lemma readLater_spec (event : object) (s : S) :
  ∃ res, readLater event s = (res, s) ∧ (res = inr tt ↔ laterIsComplete event).
Proof.
  unfold readLater, laterIsComplete, bind. reads.
  destruct (nullish (getOwn (VObj event) "request")) eqn:Hreq.
  { destruct (get_nullish _ "method" s Hreq) as [e ->].
    eexists. split; [reflexivity|]. split; [done|]. by intros [? _]. }
  reads.
  destruct (nullish (getOwn (VObj event) "response")) eqn:Hres.
  { destruct (get_nullish _ "body" s Hres) as [e ->].
    eexists. split; [reflexivity|]. split; [done|]. by intros [_ ?]. }
  reads. eexists. split; [reflexivity|]. done.
Qed.

Lemma readAll_spec (events : list object) (s : S) :
  ∃ res, readAll events s = (res, s) ∧ (res = inr tt ↔ Forall laterIsComplete events).
Proof.
  induction events as [|event events IH]; simpl.
  - eexists. split; [reflexivity|]. done.
  - unfold bind. destruct (readLater_spec event s) as (res & -> & Hres).
    destruct res as [e|[]].
    + eexists. split; [reflexivity|]. split; [done|].
      intros [Hev _]%Forall_cons. apply Hres in Hev. done.
    + destruct IH as (res' & -> & Hres'). eexists. split; [reflexivity|].
      rewrite Forall_cons, <- Hres', <- Hres. tauto.
Qed.

(** X15.  [sendBatch] never throws, and it gets to [fetch] exactly when
    there is a first event whose [request] has [headers] with a string
    for [host] and a [url] that [new URL] accepts, and every other event
    has both a [request] and a [response]; one span that is not the root
    and lacks either makes the whole batch be dropped. *)
Theorem sendBatch_posts_iff (events : list object) (s : S) :
  ∃ posted, sendBatch validURL events s = (inr posted, s) ∧
    (posted = true ↔
     ∃ first rest, events = first :: rest ∧ firstIsComplete validURL first ∧
                   Forall laterIsComplete rest).
Proof.
  unfold sendBatch, Wrapper.try_catch, bind.
  destruct (readFirst_spec events s) as (res & -> & Hfirst).
  destruct res as [e|[]].
  - exists false. split; [done|]. split; [done|].
    intros (f & r & -> & ? & _).
    assert (@inl error unit e = inr tt) by (apply Hfirst; eauto). done.
  - destruct (proj1 Hfirst eq_refl) as (first & rest & -> & Hcomplete). simpl.
    destruct (readAll_spec rest s) as (res & -> & Hall).
    destruct res as [e|[]].
    + exists false. split; [done|]. split; [done|].
      intros (f & r & [= <- <-] & _ & Hrest). apply Hall in Hrest. done.
    + exists true. split; [done|]. split; [|done]. intros _.
      exists first, rest. split; [done|]. split; [done|]. by apply Hall.
Qed.
End BatchFacts.

Section BatchWitnesses.
Import Tracer Wrapper Batch.

Lemma sendBatch_posts_iff_witness :
  sendBatch (λ _, true) (lastBatch Samples.respondsEnd) tt = (inr true, tt) ∧
  sendBatch (λ _, true) (lastBatch Samples.waitsAndRespondsEnd) tt = (inr false, tt).
Proof.
  split.
  - destruct (sendBatch_posts_iff (λ _, true) (lastBatch Samples.respondsEnd) tt)
      as (posted & Hsend & Hiff).
    rewrite Hsend. do 2 f_equal. apply Hiff.
    exists (default ∅ (head (lastBatch Samples.respondsEnd))), [].
    split; [vm_compute; reflexivity|]. split; [|constructor].
    eexists _, _, _. split; [vm_compute; reflexivity|].
    split; [reflexivity|]. split; [reflexivity|]. split; [reflexivity|].
    split; [vm_compute; reflexivity | reflexivity].
  - destruct (sendBatch_posts_iff (λ _, true) (lastBatch Samples.waitsAndRespondsEnd) tt)
      as ([|] & Hsend & Hiff); [|exact Hsend].
    exfalso. destruct (proj1 Hiff eq_refl) as (first & rest & Hev & _ & Hall).
    set (event := default ∅ (lastBatch Samples.waitsAndRespondsEnd !! 1)).
    assert (rest !! 0 = Some event) as Hevent.
    { change (rest !! 0) with ((first :: rest) !! 1). rewrite <- Hev.
      vm_compute; reflexivity. }
    destruct (Forall_lookup_1 _ _ _ _ Hall Hevent) as [Hreq _].
    vm_compute in Hreq. discriminate Hreq.
Defined.
End BatchWitnesses.

(** ** The captured response *)

Section ResponseFacts.
Import Tracer.


End ResponseFacts.
